(** * tpack-modular: the module dependency graph ([src/module.ts])

    A shallow embedding of the [Module] class: the pending dependency
    declarations and their one-time resolution, the three relation lists
    ([includes], [imports], [excludes]) with the edge-insertion methods, and
    the read-time traversals that compute the bundle order.

    Module instances are JavaScript objects that reference each other, so the
    embedding keeps them in a store ([gmap]) indexed by reference; relation
    lists hold references.  Recursive methods whose termination depends on the
    shape of the object graph take a [fuel] argument that bounds the depth of
    the call stack; [None] means that the fuel ran out. *)

From stdpp Require Import gmap strings list fin_maps.

Abbreviation ref := nat (only parsing).

(** ** Data model *)

(** The part of [digo.File] the class reads: [file.srcPath], [file.destPath]. *)
Record File := mkFile {
  f_srcPath : option string;
  f_destPath : option string
}.

(** [ModuleOptions]. *)
Record ModuleOptions := mkOptions {
  opt_imports : option (list string);
  opt_excludes : option (list string);
  opt_mimeTypes : option (list (string * string))
}.

(** The closures that the constructor passes to [require]:
    [module => { if (module) this.import(module) }] and
    [module => { if (module) this.exclude(module) }].  [this] is the module
    on whose [requires] list the closure sits. *)
Inductive Callback := OnImport | OnExclude.

(** The fields of a [Module] instance.  [file] and [requires] are [None] once
    they have been [delete]d. *)
Record Module := mkModule {
  packer : gmap string ref;
  file : option File;
  options : ModuleOptions;
  srcPath : option string;
  destPath : option string;
  requires : option (list (option string * Callback));
  resolved : bool;
  includes : list ref;
  imports : list ref;
  excludes : list ref
}.

(** ** Reading the relation lists of a stored module

    A reference that is not in the store has no counterpart in JavaScript; the
    read-only traversals treat it as a module without edges. *)
Definition includes_of (h : gmap ref Module) (r : ref) : list ref :=
  from_option includes [] (h !! r).
Definition imports_of (h : gmap ref Module) (r : ref) : list ref :=
  from_option imports [] (h !! r).
Definition excludes_of (h : gmap ref Module) (r : ref) : list ref :=
  from_option excludes [] (h !! r).

Arguments includes_of : simpl never.
Arguments imports_of : simpl never.
Arguments excludes_of : simpl never.

(** [for (const x of l) body(x)] over a threaded state, stopping when the
    body runs out of fuel. *)
Definition for_of {A S : Type} (body : A → S → option S) : list A → S → option S :=
  fix go l s :=
    match l with
    | [] => Some s
    | x :: l' => match body x s with Some s' => go l' s' | None => None end
    end.

(** ** The order compiler *)

(** [addImportsTo(result, processed)]; the state is the pair of the two
    arrays, both mutated in place by the method. *)
Fixpoint addImportsTo (fuel : nat) (h : gmap ref Module) (this : ref)
    (st : list ref * list ref) : option (list ref * list ref) :=
  match fuel with
  | 0 => None
  | S fuel' =>
    if bool_decide (this ∈ st.2) then Some st
    else
      match for_of (addImportsTo fuel' h) (imports_of h this)
                   (st.1, st.2 ++ [this]) with
      | Some st' => Some (st'.1 ++ [this], st'.2)
      | None => None
      end
  end.

(** [addExcludesTo(result, processed)]. *)
Fixpoint addExcludesTo (fuel : nat) (h : gmap ref Module) (this : ref)
    (st : list ref * list ref) : option (list ref * list ref) :=
  match fuel with
  | 0 => None
  | S fuel' =>
    if bool_decide (this ∈ st.2) then Some st
    else
      for_of (λ module s,
                match addImportsTo fuel' h module s with
                | Some s' => addExcludesTo fuel' h module s'
                | None => None
                end)
             (excludes_of h this) (st.1, st.2 ++ [this])
  end.

(** [getModuleList()]. *)
Definition getModuleList (fuel : nat) (h : gmap ref Module) (this : ref)
    : option (list ref) :=
  match addImportsTo fuel h this ([], []) with
  | None => None
  | Some (imports, _) =>
    match addExcludesTo fuel h this ([], [this]) with
    | None => None
    | Some (excludes, _) =>
      match length excludes with
      | 0 => Some imports
      | S _ => Some (filter (λ module, module ∉ excludes) imports)
      end
    end
  end.

(** ** The mutable world *)

(** Exceptions the methods can raise. *)
Inductive Exn := AssertionError | TypeError.

Inductive Res (A : Type) := Ok (a : A) | Throw (e : Exn).
Arguments Ok {A} a.
Arguments Throw {A} e.

(** The store of module instances, the log of [file.dep(path, {source})]
    calls (the build tool's dependency side channel), and the log of callback
    invocations [(owner, callback, argument)] made by [resolve]. *)
Record World := mkWorld {
  heap : gmap ref Module;
  deps : list (File * string * string);
  trace : list (ref * Callback * option ref)
}.

Definition set_file (v : option File) (m : Module) : Module :=
  mkModule (packer m) v (options m) (srcPath m) (destPath m) (requires m)
           (resolved m) (includes m) (imports m) (excludes m).
Definition set_requires (v : option (list (option string * Callback)))
    (m : Module) : Module :=
  mkModule (packer m) (file m) (options m) (srcPath m) (destPath m) v
           (resolved m) (includes m) (imports m) (excludes m).
Definition set_resolved (v : bool) (m : Module) : Module :=
  mkModule (packer m) (file m) (options m) (srcPath m) (destPath m)
           (requires m) v (includes m) (imports m) (excludes m).
Definition set_includes (v : list ref) (m : Module) : Module :=
  mkModule (packer m) (file m) (options m) (srcPath m) (destPath m)
           (requires m) (resolved m) v (imports m) (excludes m).
Definition set_imports (v : list ref) (m : Module) : Module :=
  mkModule (packer m) (file m) (options m) (srcPath m) (destPath m)
           (requires m) (resolved m) (includes m) v (excludes m).
Definition set_excludes (v : list ref) (m : Module) : Module :=
  mkModule (packer m) (file m) (options m) (srcPath m) (destPath m)
           (requires m) (resolved m) (includes m) (imports m) v.

Definition store (this : ref) (m : Module) (w : World) : World :=
  mkWorld (<[this := m]> (heap w)) (deps w) (trace w).

(** JavaScript truthiness of a [string | undefined]: [undefined] and the
    empty string are falsy. *)
Definition truthy (s : option string) : option string :=
  match s with
  | Some s' => if decide (s' = EmptyString) then None else Some s'
  | None => None
  end.

(** Modelled from the spec: [console.assert] belongs to the host, not to
    this repository; the declaration contract says that the call "fails
    (assertion)" when its condition is false, as it does on the Node
    releases that raise [AssertionError] from [console.assert]. *)
Definition console_assert (cond : bool) : Res unit :=
  if cond then Ok tt else Throw AssertionError.

(** Modelled from the spec: [Packer.getModuleFromPath] is declared in
    [./packer], outside the sources at hand; it is to "return the
    already-instantiated module for identity", [ensureFile] having been called
    first.  The packer is kept as the table of the modules it has
    instantiated; an identity outside the table gives [undefined]. *)
Definition getModuleFromPath (pk : gmap string ref) (path : string)
    : option ref :=
  pk !! path.

(** Modelled from the spec: [this.file.dep(path, { source })] is the build
    tool's [recordFileDependency], a "side-channel used purely for external
    build-cache invalidation"; the call is appended to the dependency log.
    Reading [dep] off a deleted [file] is a [TypeError]. *)
Definition file_dep (this : ref) (path source : string) (w : World)
    : Res unit * World :=
  match heap w !! this with
  | Some m =>
    match file m with
    | Some f => (Ok tt, mkWorld (heap w) (deps w ++ [(f, path, source)]) (trace w))
    | None => (Throw TypeError, w)
    end
  | None => (Throw TypeError, w)
  end.

(** [if (module.srcPath) this.file.dep(module.srcPath, { source })]. *)
Definition dep_on (this module : ref) (source : string) (w : World)
    : Res unit * World :=
  match heap w !! module with
  | Some m' =>
    match truthy (srcPath m') with
    | Some p => file_dep this p source w
    | None => (Ok tt, w)
    end
  | None => (Throw TypeError, w)
  end.

(** ** The dependency registry *)

(** [require(path, callback)], for a host whose [console.assert] is
    [host_assert]. *)
Definition require_with (host_assert : bool → Res unit) (this : ref)
    (path : option string) (callback : Callback) (w : World)
    : Res unit * World :=
  match heap w !! this with
  | None => (Throw TypeError, w)
  | Some m =>
    match host_assert (negb (resolved m)) with
    | Throw e => (Throw e, w)
    | Ok _ =>
      match requires m with
      | Some reqs =>
        (Ok tt, store this (set_requires (Some (reqs ++ [(path, callback)])) m) w)
      | None => (Throw TypeError, w)
      end
    end
  end.

Definition require : ref → option string → Callback → World → Res unit * World :=
  require_with console_assert.

(** ** The relation graph *)

(** [for (const x of l) { if (body(x)) return true; } return false;] with a
    body that can run out of fuel. *)
Definition any_of {A : Type} (body : A → option bool) : list A → option bool :=
  fix loop l :=
    match l with
    | [] => Some false
    | x :: l' =>
      match body x with
      | None => None
      | Some true => Some true
      | Some false => loop l'
      end
    end.

(** [hasInclude(module)]: a depth-first probe without a visited set. *)
Fixpoint hasInclude (fuel : nat) (h : gmap ref Module) (this module : ref)
    : option bool :=
  match fuel with
  | 0 => None
  | S fuel' =>
    if decide (module = this) then Some true
    else any_of (λ include, hasInclude fuel' h include module) (includes_of h this)
  end.

(** [include(module)]. *)
Definition include (fuel : nat) (this module : ref) (w : World)
    : option (Res bool * World) :=
  match hasInclude fuel (heap w) module this with
  | None => None
  | Some true => Some (Ok false, w)
  | Some false =>
    match heap w !! this with
    | None => Some (Throw TypeError, w)
    | Some m =>
      let w1 := store this (set_includes (includes m ++ [module]) m) w in
      match dep_on this module "WebPack:include" w1 with
      | (Ok _, w2) => Some (Ok true, w2)
      | (Throw e, w2) => Some (Throw e, w2)
      end
    end
  end.

(** [import(module)]. *)
Definition import (this module : ref) (w : World) : Res unit * World :=
  if decide (module = this) then (Ok tt, w)
  else
    match heap w !! this with
    | None => (Throw TypeError, w)
    | Some m =>
      dep_on this module "WebPack:import"
             (store this (set_imports (imports m ++ [module]) m) w)
    end.

(** [exclude(module)]. *)
Definition exclude (this module : ref) (w : World) : Res unit * World :=
  if decide (module = this) then (Ok tt, w)
  else
    match heap w !! this with
    | None => (Throw TypeError, w)
    | Some m =>
      dep_on this module "WebPack:exclude"
             (store this (set_excludes (excludes m ++ [module]) m) w)
    end.

(** ** The resolver *)

(** Invoking a pending declaration's callback [req[1](arg)] of module [this];
    every invocation is appended to the trace. *)
Definition run_callback (this : ref) (cb : Callback) (arg : option ref)
    (w : World) : Res unit * World :=
  let w1 := mkWorld (heap w) (deps w) (trace w ++ [(this, cb, arg)]) in
  match arg with
  | None => (Ok tt, w1)
  | Some module =>
    match cb with
    | OnImport => import this module w1
    | OnExclude => exclude this module w1
    end
  end.

Arguments run_callback : simpl never.

(** A [for ... of] loop whose body can throw or run out of fuel. *)
Definition for_each {A : Type} (body : A → World → option (Res unit * World))
    : list A → World → option (Res unit * World) :=
  fix go l w :=
    match l with
    | [] => Some (Ok tt, w)
    | x :: l' =>
      match body x w with
      | Some (Ok _, w') => go l' w'
      | other => other
      end
    end.

(** [resolve()].  The loop runs over the [requires] array as it is when the
    loop starts: in this class only [require] pushes to it, and no callback
    calls [require]. *)
Fixpoint resolve (fuel : nat) (this : ref) (w : World)
    : option (Res unit * World) :=
  match fuel with
  | 0 => None
  | S fuel' =>
    match heap w !! this with
    | None => Some (Throw TypeError, w)
    | Some m =>
      if resolved m then Some (Ok tt, w)
      else
        let w1 := store this (set_resolved true m) w in
        match requires m with
        | None => Some (Throw TypeError, w1)
        | Some reqs =>
          match for_each
                  (λ req w',
                     match truthy req.1 with
                     | Some path =>
                       match getModuleFromPath (packer m) path with
                       | None => Some (Throw TypeError, w')
                       | Some module =>
                         match resolve fuel' module w' with
                         | Some (Ok _, w'') =>
                           Some (run_callback this req.2 (Some module) w'')
                         | other => other
                         end
                       end
                     | None => Some (run_callback this req.2 None w')
                     end)
                  reqs w1 with
          | Some (Ok _, w2) =>
            match heap w2 !! this with
            | Some m2 =>
              Some (Ok tt, store this (set_file None (set_requires None m2)) w2)
            | None => Some (Throw TypeError, w2)
            end
          | other => other
          end
        end
    end
  end.

(** ** Construction *)

(** [emptyObject], the frozen [{}] used when no options are given. *)
Definition emptyObject : ModuleOptions := mkOptions None None None.

(** Sequencing of two steps that can throw. *)
Definition and_then (r : Res unit * World) (k : World → Res unit * World)
    : Res unit * World :=
  match r with
  | (Ok _, w) => k w
  | (Throw e, w) => (Throw e, w)
  end.

Section Construction.
(** Node's [path.resolve(...segments)], which this repository only calls. *)
Variable path_resolve : list string → string.

(** [resolvePathInConfig(base, p?)]; [46] is the char code of ["."]. *)
Definition resolvePathInConfig (this_srcPath : option string)
    (base : string) (p : option string) : string :=
  match base with
  | String c _ =>
    if decide (Ascii.nat_of_ascii c = 46)
    then path_resolve [default EmptyString this_srcPath; base; default EmptyString p]
    else path_resolve [base; default EmptyString p]
  | EmptyString => path_resolve [base; default EmptyString p]
  end.

(** The fields as the constructor and the property initialisers leave them
    before the first [require]. *)
Definition new_module (pk : gmap string ref) (f : File)
    (opts : option ModuleOptions) : Module :=
  mkModule pk (Some f) (default emptyObject opts) (f_srcPath f) (f_destPath f)
           (Some []) false [] [] [].

(** [new Module(packer, file, options)]: the new instance gets a reference
    that is not yet in the store. *)
Definition constructor (pk : gmap string ref) (f : File)
    (opts : option ModuleOptions) (w : World) : Res ref * World :=
  let this := fresh (dom (heap w)) in
  let m := new_module pk f opts in
  let declare cb paths r :=
    foldl (λ acc path,
             and_then acc
               (require this (Some (resolvePathInConfig (srcPath m) path None)) cb))
          r paths in
  let r1 := declare OnImport (default [] (opt_imports (options m)))
                    (Ok tt, store this m w) in
  let r2 := declare OnExclude (default [] (opt_excludes (options m))) r1 in
  match r2 with
  | (Ok _, w') => (Ok this, w')
  | (Throw e, w') => (Throw e, w')
  end.
End Construction.

(** ** Call sequences

    What a subclass or the orchestrator can do to the graph through this
    class: create modules, declare dependencies, resolve, and insert edges. *)
Inductive Call :=
  | CNew (pk : gmap string ref) (f : File) (opts : option ModuleOptions)
  | CRequire (this : ref) (path : option string) (cb : Callback)
  | CResolve (this : ref)
  | CInclude (this module : ref)
  | CImport (this module : ref)
  | CExclude (this module : ref).

(** The world after one call; a call that throws leaves the world as it was
    when the exception was raised. *)
Definition run_call (path_resolve : list string → string) (fuel : nat)
    (c : Call) (w : World) : option World :=
  match c with
  | CNew pk f opts => Some (constructor path_resolve pk f opts w).2
  | CRequire this path cb => Some (require this path cb w).2
  | CResolve this => snd <$> (resolve fuel this w)
  | CInclude this module => snd <$> (include fuel this module w)
  | CImport this module => Some (import this module w).2
  | CExclude this module => Some (exclude this module w).2
  end.

Definition run_calls (path_resolve : list string → string) (fuel : nat)
    : list Call → World → option World :=
  for_of (run_call path_resolve fuel).

(** ** Relations on the store used to state the properties *)

(** [m] is an entry of [t]'s [includes] list. *)
Definition includes_edge (h : gmap ref Module) (t m : ref) : Prop :=
  m ∈ includes_of h t.

(** No module reaches itself through one or more [includes] edges. *)
Definition acyclic_includes (h : gmap ref Module) : Prop :=
  ∀ x, ¬ tc (includes_edge h) x x.

(** No module is an entry of one of its own relation lists. *)
Definition no_self_edges (h : gmap ref Module) : Prop :=
  ∀ r m, h !! r = Some m →
    (r ∉ includes m) ∧ (r ∉ imports m) ∧ (r ∉ excludes m).

(** Modules of the store that a traversal has not yet marked. *)
Definition unvisited (h : gmap ref Module) (processed : list ref) : gset ref :=
  dom h ∖ list_to_set processed.

(** The unresolved modules of a store bound the depth of [resolve]. *)
Definition unresolved (h : gmap ref Module) : gset ref :=
  dom (filter (λ kv, resolved kv.2 = false) h).

(** The body of the loop of [resolve], for the module [this] whose fields
    were [m] when the loop started. *)
Definition resolve_req (fuel : nat) (this : ref) (m : Module)
    (req : option string * Callback) (w : World) : option (Res unit * World) :=
  match truthy req.1 with
  | Some path =>
    match getModuleFromPath (packer m) path with
    | None => Some (Throw TypeError, w)
    | Some module =>
      match resolve fuel module w with
      | Some (Ok _, w') => Some (run_callback this req.2 (Some module) w')
      | other => other
      end
    end
  | None => Some (run_callback this req.2 None w)
  end.

(** ** What resolution can do to the world

    Every mutation that [resolve] and the callbacks it fires perform is one of
    the following atomic steps. *)
Inductive step : World → World → Prop :=
  | step_dep w d :
      step w (mkWorld (heap w) (deps w ++ [d]) (trace w))
  | step_trace w e :
      step w (mkWorld (heap w) (deps w) (trace w ++ [e]))
  | step_imports w this m module :
      heap w !! this = Some m → module ≠ this →
      step w (store this (set_imports (imports m ++ [module]) m) w)
  | step_excludes w this m module :
      heap w !! this = Some m → module ≠ this →
      step w (store this (set_excludes (excludes m ++ [module]) m) w)
  | step_resolved w this m :
      heap w !! this = Some m →
      step w (store this (set_resolved true m) w)
  | step_shed w this m :
      heap w !! this = Some m →
      step w (store this (set_file None (set_requires None m)) w).

(** What stays and what may change in a module while others resolve. *)
Record grows (m m' : Module) : Prop := mkGrows {
  grows_packer : packer m' = packer m;
  grows_options : options m' = options m;
  grows_srcPath : srcPath m' = srcPath m;
  grows_destPath : destPath m' = destPath m;
  grows_includes : includes m' = includes m;
  grows_imports : imports m `prefix_of` imports m';
  grows_excludes : excludes m `prefix_of` excludes m';
  grows_resolved : resolved m = true → resolved m' = true
}.

Record evolves (w w' : World) : Prop := mkEvolves {
  ev_heap : ∀ r, option_Forall2 grows (heap w !! r) (heap w' !! r);
  ev_deps : deps w `prefix_of` deps w';
  ev_trace : trace w `prefix_of` trace w'
}.

(** The caller's side of the contract of [resolve]: [ensure] has made every
    declared target of a still unresolved module known to its packer, and an
    unresolved module still has its [file] and its [requires]. *)
Definition declaration_ready (known : gset ref) (m : Module)
    (req : option string * Callback) : bool :=
  match truthy req.1 with
  | Some path =>
    match getModuleFromPath (packer m) path with
    | Some module => bool_decide (module ∈ known)
    | None => false
    end
  | None => true
  end.

Definition module_ready (known : gset ref) (m : Module) : bool :=
  resolved m ||
  (bool_decide (is_Some (file m)) &&
   match requires m with
   | Some reqs => forallb (declaration_ready known m) reqs
   | None => false
   end).

Definition ready (h : gmap ref Module) : Prop :=
  map_Forall (λ _ m, module_ready (dom h) m = true) h.

#[local] Instance ready_dec (h : gmap ref Module) : Decision (ready h).
Proof. unfold ready. apply _. Defined.

(** [m] is an entry of [t]'s [imports] list. *)
Definition imports_edge (h : gmap ref Module) (t m : ref) : Prop :=
  m ∈ imports_of h t.

(** What a traversal from the modules [roots] has done between the array
    pair [st] and the array pair [st']: it appended to both arrays, the same
    modules to each, none of them marked before, each reachable from a root
    over [imports]; every import of an appended module is marked afterwards,
    and so is every root. *)
Definition visit_spec (h : gmap ref Module) (roots : list ref)
    (st st' : list ref * list ref) : Prop :=
  ∃ newR newP,
    st'.1 = st.1 ++ newR ∧ st'.2 = st.2 ++ newP ∧
    newR ≡ₚ newP ∧ NoDup newP ∧
    (∀ x, x ∈ newP → x ∉ st.2) ∧
    (∀ x, x ∈ newP → ∃ c, c ∈ roots ∧ rtc (imports_edge h) c x) ∧
    (∀ x y, x ∈ newP → y ∈ imports_of h x → y ∈ st'.2) ∧
    (∀ c, c ∈ roots → c ∈ st'.2).

(** Where the imports of an appended module are: before it in the result,
    on the call stack (marked but not yet in the result), or on an import
    cycle with it. *)
Definition order_spec (h : gmap ref Module) (st : list ref * list ref)
    (newR : list ref) : Prop :=
  ∀ i x y, newR !! i = Some x → y ∈ imports_of h x →
    y ∈ st.1 ++ take i newR ∨ (y ∈ st.2 ∧ y ∉ st.1) ∨
    rtc (imports_edge h) y x.

(** The module that a pending declaration of a module with fields [m]
    resolves to: none for a declaration without a target. *)
Definition target_of (m : Module) (req : option string * Callback)
    : option ref :=
  match truthy req.1 with
  | Some path => getModuleFromPath (packer m) path
  | None => None
  end.

Definition callback_is (cb cb' : Callback) : bool :=
  match cb, cb' with
  | OnImport, OnImport | OnExclude, OnExclude => true
  | _, _ => false
  end.

(** The edge that the callback of a declaration appends to the list that
    the callbacks of kind [cb] write to: the target, unless the declaration
    has another kind, no target, or the owner itself as target. *)
Definition edge_of (cb : Callback) (this : ref) (m : Module)
    (req : option string * Callback) : option ref :=
  if callback_is cb req.2 then
    match target_of m req with
    | Some module => if decide (module = this) then None else Some module
    | None => None
    end
  else None.

(** The callback invocations of a module's pending declarations, in
    declaration order. *)
Definition invocations (this : ref) (m : Module)
    (reqs : list (option string * Callback))
    : list (ref * Callback * option ref) :=
  map (λ req, (this, req.2, target_of m req)) reqs.

(** [ensure()], for a host whose [console.assert] is [host_assert].  The
    result is the list of the identities handed to [this.packer.ensureFile],
    in order; what [ensureFile] then does to the packer lies outside this
    class. *)
Definition ensure_with (host_assert : bool → Res unit) (this : ref)
    (w : World) : Res (list string) :=
  match heap w !! this with
  | None => Throw TypeError
  | Some m =>
    match host_assert (negb (resolved m)) with
    | Throw e => Throw e
    | Ok _ =>
      match requires m with
      | Some reqs => Ok (omap (λ req, truthy req.1) reqs)
      | None => Throw TypeError
      end
    end
  end.

Definition ensure : ref → World → Res (list string) :=
  ensure_with console_assert.

(** The pending declarations that the constructor derives from the options:
    one per configured import, then one per configured exclude. *)
Definition declarations (path_resolve : list string → string)
    (this_srcPath : option string) (opts : ModuleOptions)
    : list (option string * Callback) :=
  map (λ path, (Some (resolvePathInConfig path_resolve this_srcPath path None),
                OnImport))
      (default [] (opt_imports opts)) ++
  map (λ path, (Some (resolvePathInConfig path_resolve this_srcPath path None),
                OnExclude))
      (default [] (opt_excludes opts)).

(** The modules that configured paths stand for, without the paths that
    resolve to nothing and without the module itself. *)
Definition configured_targets (path_resolve : list string → string)
    (pk : gmap string ref) (this_srcPath : option string) (this : ref)
    (paths : list string) : list ref :=
  omap (λ path,
          match truthy (Some (resolvePathInConfig path_resolve this_srcPath
                                                  path None)) with
          | Some p =>
            match getModuleFromPath pk p with
            | Some module => if decide (module = this) then None else Some module
            | None => None
            end
          | None => None
          end) paths.

(** Small worlds used in the examples, built by the constructor and
    [resolve]: the modules [0], [1], [2] have the source paths [/a], [/b],
    [/c]. *)
Module Fixture.
Definition pk : gmap string ref :=
  {[ "/a" := 0; "/b" := 1; "/c" := 2 ]}.
Definition path_resolve (l : list string) : string :=
  foldl (λ acc s, if decide (s = EmptyString) then acc else s) EmptyString l.
Definition fileA := mkFile (Some "/a") (Some "/out/a").
Definition fileB := mkFile (Some "/b") (Some "/out/b").
Definition fileC := mkFile (Some "/c") None.
Definition empty_world : World := mkWorld ∅ [] [].
Definition world_of (script : list Call) : World :=
  default empty_world (run_calls path_resolve 4 script empty_world).

(** [0] imports and excludes [1], [1] imports [2]. *)
Definition declared : list Call :=
  [ CNew pk fileA (Some (mkOptions (Some ["/b"]) (Some ["/b"]) None));
    CNew pk fileB (Some (mkOptions (Some ["/c"]) None None));
    CNew pk fileC None ].
Definition declared_world : World := world_of declared.
Definition resolved_world : World := world_of (declared ++ [CResolve 0]).

(** The same imports without the exclusion. *)
Definition line_world : World :=
  world_of [ CNew pk fileA (Some (mkOptions (Some ["/b"]) None None));
             CNew pk fileB (Some (mkOptions (Some ["/c"]) None None));
             CNew pk fileC None;
             CResolve 0 ].

(** [0] imports [1] and [2], [1] imports [2]. *)
Definition diamond_world : World :=
  world_of [ CNew pk fileA (Some (mkOptions (Some ["/b"; "/c"]) None None));
             CNew pk fileB (Some (mkOptions (Some ["/c"]) None None));
             CNew pk fileC None;
             CResolve 0 ].

(** [0] imports [1], [1] imports [0]. *)
Definition cycle_world : World :=
  world_of [ CNew pk fileA (Some (mkOptions (Some ["/b"]) None None));
             CNew pk fileB (Some (mkOptions (Some ["/a"]) None None));
             CResolve 0 ].

(** [0] imports [1] and has a declaration without a target, before and
    after [resolve] on [0]. *)
Definition null_target_script : list Call :=
  [ CNew pk fileA (Some (mkOptions (Some ["/b"]) None None));
    CNew pk fileB None;
    CRequire 0 None OnExclude ].
Definition null_target_world : World := world_of null_target_script.
Definition null_target_resolved : World :=
  world_of (null_target_script ++ [CResolve 0]).

(** The fields of a stored module. *)
Definition the_module (w : World) (r : ref) : Module :=
  default (new_module ∅ (mkFile None None) None) (heap w !! r).

(** Two modules, then [0] includes [1] and [1] tries to include [0]. *)
Definition include_script : list Call :=
  [ CNew pk fileA None; CNew pk fileB None; CInclude 0 1; CInclude 1 0 ].
Definition include_world : World := world_of include_script.

(** The import cycle before [resolve]. *)
Definition cycle_declared : World :=
  world_of [ CNew pk fileA (Some (mkOptions (Some ["/b"]) None None));
             CNew pk fileB (Some (mkOptions (Some ["/a"]) None None)) ].

(** [1] and [2] resolved first, then [0]. *)
Definition partly_resolved : World := world_of (declared ++ [CResolve 1]).
Definition then_resolved : World :=
  world_of (declared ++ [CResolve 1; CResolve 0]).

(** A module whose configured import is unknown to the packer, before and
    after [resolve] on it. *)
Definition broken_script : list Call :=
  [ CNew pk fileA (Some (mkOptions (Some ["/missing"; "/b"]) None None)) ].
Definition broken_world : World := world_of broken_script.
Definition broken_resolved : World := world_of (broken_script ++ [CResolve 0]).

(** A fourth module that imports [1] and [2] and excludes [0], added to the
    declared world and resolved. *)
Definition fileD := mkFile (Some "/d") (Some "/out/d").
Definition optionsD : ModuleOptions :=
  mkOptions (Some ["/b"; "/c"]) (Some ["/a"]) None.
Definition added_world : World :=
  world_of (declared ++ [CNew pk fileD (Some optionsD)]).
Definition added_resolved : World :=
  world_of (declared ++ [CNew pk fileD (Some optionsD); CResolve 3]).

(** A store, not reachable through [include], whose module [0] includes
    itself. *)
Definition looped_store : gmap ref Module :=
  {[ 0 := set_includes [0] (new_module pk fileA None) ]}.
End Fixture.

(** * Properties *)

(** ** The order compiler *)

Section OrderCompiler.
Variable h : gmap ref Module.

Lemma unvisited_mono (p q : list ref) :
  p ⊆ q → size (unvisited h q) ≤ size (unvisited h p).
Proof.
  intros Hpq. apply subseteq_size. unfold unvisited.
  intros x. rewrite !elem_of_difference, !elem_of_list_to_set.
  intros [Hd Hq]. split; [done|]. intros Hp. apply Hq, Hpq, Hp.
Qed.

Lemma unvisited_mark (p : list ref) (this : ref) :
  this ∈ dom h → this ∉ p →
  size (unvisited h (p ++ [this])) < size (unvisited h p).
Proof.
  intros Hd Hp. apply subset_size. unfold unvisited. split.
  - intros x. rewrite !elem_of_difference, !elem_of_list_to_set.
    intros [Hx Hn]. split; [done|]. intros Hin. apply Hn.
    apply elem_of_app. by left.
  - intros Hsub. specialize (Hsub this).
    rewrite !elem_of_difference, !elem_of_list_to_set in Hsub.
    destruct Hsub as [_ Hn]; [done|]. apply Hn, elem_of_app. right.
    by apply list_elem_of_singleton.
Qed.

Lemma imports_of_outside (this : ref) :
  this ∉ dom h → imports_of h this = [].
Proof.
  intros Hd. apply not_elem_of_dom in Hd. unfold imports_of. by rewrite Hd.
Qed.

(** The loop over the imports of a module returns when every call in it
    does, and only ever grows the visited array. *)
Lemma for_of_addImportsTo_total (fuel : nat) :
  (∀ this st, size (unvisited h st.2) < fuel →
     ∃ st', addImportsTo fuel h this st = Some st' ∧ st.2 ⊆ st'.2) →
  ∀ l st, size (unvisited h st.2) < fuel →
    ∃ st', for_of (addImportsTo fuel h) l st = Some st' ∧ st.2 ⊆ st'.2.
Proof.
  intros IH l. induction l as [|x l IHl]; intros st Hlt; simpl.
  - by exists st.
  - destruct (IH x st Hlt) as (st1 & -> & Hsub1).
    destruct (IHl st1) as (st2 & -> & Hsub2).
    + pose proof (unvisited_mono _ _ Hsub1). lia.
    + exists st2. split; [done|]. by etrans.
Qed.

(** [addImportsTo] returns on every store, cyclic or not: a stack deeper
    than the number of unvisited modules is never needed. *)
Lemma addImportsTo_total (fuel : nat) (this : ref) (st : list ref * list ref) :
  size (unvisited h st.2) < fuel →
  ∃ st', addImportsTo fuel h this st = Some st' ∧ st.2 ⊆ st'.2.
Proof.
  revert this st. induction fuel as [|fuel IH]; intros this st Hlt; [lia|].
  simpl. case_bool_decide as Hin.
  - by exists st.
  - destruct (decide (this ∈ dom h)) as [Hd|Hd].
    + destruct (for_of_addImportsTo_total fuel IH (imports_of h this)
                  (st.1, st.2 ++ [this])) as (st1 & -> & Hsub).
      * simpl. pose proof (unvisited_mark _ _ Hd Hin). lia.
      * exists (st1.1 ++ [this], st1.2). split; [done|]. simpl in *.
        intros x Hx. apply Hsub, elem_of_app. by left.
    + rewrite (imports_of_outside _ Hd). simpl.
      eexists. split; [done|]. simpl. intros x Hx. apply elem_of_app. by left.
Qed.

(** More fuel never changes a result. *)
Lemma for_of_fuel_mono {A S : Type} (f g : A → S → option S) :
  (∀ x s s', f x s = Some s' → g x s = Some s') →
  ∀ l s s', for_of f l s = Some s' → for_of g l s = Some s'.
Proof.
  intros Hfg l. induction l as [|x l IHl]; intros s s'; simpl; [done|].
  destruct (f x s) as [s1|] eqn:Hf; [|done].
  rewrite (Hfg _ _ _ Hf). apply IHl.
Qed.

Lemma addImportsTo_fuel_mono (fuel k : nat) (this : ref)
    (st st' : list ref * list ref) :
  addImportsTo fuel h this st = Some st' →
  addImportsTo (fuel + k) h this st = Some st'.
Proof.
  revert this st st'. induction fuel as [|fuel IH]; intros this st st'; [done|].
  simpl. case_bool_decide; [done|].
  destruct (for_of (addImportsTo fuel h) _ _) as [st1|] eqn:Hloop; [|done].
  intros [= <-].
  by rewrite (for_of_fuel_mono _ (addImportsTo (fuel + k) h) (IH) _ _ _ Hloop).
Qed.

(** Seeded with a visited array that already holds the root, the exclusion
    traversal returns at its first test and collects nothing. *)
Lemma addExcludesTo_seeded (fuel : nat) (this : ref) :
  addExcludesTo (S fuel) h this ([], [this]) = Some ([], [this]).
Proof.
  simpl. rewrite bool_decide_eq_true_2; [done|]. apply list_elem_of_singleton.
  done.
Qed.

Lemma getModuleList_unfiltered (fuel : nat) (this : ref) :
  getModuleList fuel h this = fst <$> addImportsTo fuel h this ([], []).
Proof.
  unfold getModuleList. destruct fuel as [|fuel]; [done|].
  destruct (addImportsTo (S fuel) h this ([], [])) as [[imps proc]|]; [|done].
  by rewrite addExcludesTo_seeded.
Qed.

Lemma getModuleList_total (k : nat) (this : ref) :
  is_Some (getModuleList (S (size (dom h)) + k) h this).
Proof.
  rewrite getModuleList_unfiltered.
  destruct (addImportsTo_total (S (size (dom h)) + k) this ([], []))
    as (st' & -> & _); [|done].
  simpl. pose proof (subseteq_size (unvisited h []) (dom h)) as Hle.
  unfold unvisited in *. simpl in *.
  assert (dom h ∖ ∅ ⊆ dom h) as Hs by (intros x Hx; by apply elem_of_difference in Hx as [? _]).
  specialize (Hle Hs). lia.
Qed.
End OrderCompiler.

(** Deciding the visited test on the small arrays of the examples. *)
Ltac visited :=
  repeat first
    [ rewrite bool_decide_eq_true_2 by (rewrite ?elem_of_cons; tauto)
    | rewrite bool_decide_eq_false_2
        by (rewrite ?elem_of_cons, ?elem_of_nil; intuition congruence) ].

Ltac walk := repeat (progress (simpl; visited)).

Lemma addImportsTo_unfold (fuel : nat) (h : gmap ref Module) (this : ref)
    (result processed : list ref) :
  this ∉ processed →
  addImportsTo (S fuel) h this (result, processed) =
  match for_of (addImportsTo fuel h) (imports_of h this)
               (result, processed ++ [this]) with
  | Some st' => Some (st'.1 ++ [this], st'.2)
  | None => None
  end.
Proof. intros Hn. simpl. by rewrite bool_decide_eq_false_2. Qed.

Lemma imports_chain_order (h : gmap ref Module) (A X Y : ref) :
  imports_of h A = [X; Y] → imports_of h X = [Y] → imports_of h Y = [] →
  addImportsTo 3 h A ([], []) = Some ([Y; X; A], [A; X; Y]).
Proof.
  intros HA HX HY.
  assert (A ≠ X) by (intros ->; congruence).
  assert (A ≠ Y) by (intros ->; congruence).
  assert (X ≠ Y) by (intros ->; congruence).
  simpl. rewrite HA. simpl. rewrite HX. simpl. rewrite HY. by walk.
Qed.

Lemma imports_cycle_order (h : gmap ref Module) (A B : ref) :
  A ≠ B → imports_of h A = [B] → imports_of h B = [A] →
  addImportsTo 3 h A ([], []) = Some ([B; A], [A; B]).
Proof.
  intros Hne HA HB. simpl. rewrite HA. simpl. rewrite HB. by walk.
Qed.

Lemma imports_line_order (h : gmap ref Module) (A B C : ref) :
  imports_of h A = [B] → imports_of h B = [C] → imports_of h C = [] →
  addImportsTo 3 h A ([], []) = Some ([C; B; A], [A; B; C]).
Proof.
  intros HA HB HC.
  assert (A ≠ B) by (intros ->; congruence).
  assert (A ≠ C) by (intros ->; congruence).
  assert (B ≠ C) by (intros ->; congruence).
  simpl. rewrite HA. simpl. rewrite HB. simpl. rewrite HC. by walk.
Qed.

Lemma getModuleList_from_imports (h : gmap ref Module) (this : ref)
    (fuel k : nat) (st : list ref * list ref) :
  addImportsTo fuel h this ([], []) = Some st →
  getModuleList (fuel + k) h this = Some st.1.
Proof.
  intros Hst. rewrite getModuleList_unfiltered.
  by rewrite (addImportsTo_fuel_mono h fuel k _ _ _ Hst).
Qed.

Lemma for_of_ext {A S : Type} (f g : A → S → option S) (l : list A) (s : S) :
  (∀ x s', f x s' = g x s') → for_of f l s = for_of g l s.
Proof.
  intros Hfg. revert s. induction l as [|x l IH]; intros s; simpl; [done|].
  rewrite Hfg. by destruct (g x s).
Qed.

(** The import traversal reads nothing of the store but the [imports]
    lists. *)
Lemma addImportsTo_ext (fuel : nat) (h h' : gmap ref Module) (this : ref)
    (st : list ref * list ref) :
  (∀ r, imports_of h' r = imports_of h r) →
  addImportsTo fuel h' this st = addImportsTo fuel h this st.
Proof.
  intros Hsame. revert this st. induction fuel as [|fuel IH]; intros this st;
    [done|].
  simpl. rewrite Hsame. by rewrite (for_of_ext _ (addImportsTo fuel h) _ _ IH).
Qed.

(** C2: on every store and for every module, [getModuleList] returns the
    post-order import closure of [addImportsTo(imports, [])] unfiltered: the
    exclusion traversal, seeded with the root already marked, returns an empty
    array, so two stores with the same [imports] lists give the same list
    whatever their [excludes] lists hold; and the call returns on every store
    once the stack may be as deep as the store is large. *)
Theorem getModuleList_ignores_excludes (h : gmap ref Module) (m : ref)
    (fuel k : nat) :
  getModuleList fuel h m = fst <$> addImportsTo fuel h m ([], []) ∧
  addExcludesTo (S fuel) h m ([], [m]) = Some ([], [m]) ∧
  (∀ h', (∀ r, imports_of h' r = imports_of h r) →
         getModuleList fuel h' m = getModuleList fuel h m) ∧
  is_Some (getModuleList (S (size (dom h)) + k) h m).
Proof.
  split; [apply getModuleList_unfiltered|].
  split; [apply addExcludesTo_seeded|].
  split; [|apply getModuleList_total].
  intros h' Hsame. rewrite !getModuleList_unfiltered.
  by rewrite (addImportsTo_ext fuel h h').
Qed.

(** C5: with [A.imports = [X, Y]], [X.imports = [Y]] and [Y.imports = []],
    [getModuleList] on [A] returns exactly [[Y, X, A]]; in general a module
    that is not yet marked is marked, its imports are traversed in list order
    and the module is appended after them. *)
Theorem getModuleList_order_stability (h : gmap ref Module) (A X Y : ref)
    (k : nat) :
  imports_of h A = [X; Y] → imports_of h X = [Y] → imports_of h Y = [] →
  getModuleList (3 + k) h A = Some [Y; X; A] ∧
  ∀ fuel this result processed, this ∉ processed →
    addImportsTo (S fuel) h this (result, processed) =
    match for_of (addImportsTo fuel h) (imports_of h this)
                 (result, processed ++ [this]) with
    | Some st' => Some (st'.1 ++ [this], st'.2)
    | None => None
    end.
Proof.
  intros HA HX HY. split.
  - apply (getModuleList_from_imports h A 3 k ([Y; X; A], [A; X; Y])).
    by apply imports_chain_order.
  - intros. by apply addImportsTo_unfold.
Qed.

(** C6: on the import cycle [A.imports = [B]], [B.imports = [A]],
    [getModuleList] on [A] returns, with any stack of depth three or more, and
    the list is [[B, A]]: each of the two once, [B] before [A]. *)
Theorem getModuleList_cycle_safe (h : gmap ref Module) (A B : ref) (k : nat) :
  A ≠ B → imports_of h A = [B] → imports_of h B = [A] →
  getModuleList (3 + k) h A = Some [B; A].
Proof.
  intros Hne HA HB.
  apply (getModuleList_from_imports h A 3 k ([B; A], [A; B])).
  by apply imports_cycle_order.
Qed.

(** ** The includes relation *)

Lemma any_of_true {A : Type} (body : A → option bool) (l : list A) :
  any_of body l = Some true → ∃ x, x ∈ l ∧ body x = Some true.
Proof.
  induction l as [|x l IH]; simpl; [done|].
  destruct (body x) as [[]|] eqn:Hx; [|..|done].
  - intros _. exists x. split; [apply list_elem_of_here|done].
  - intros Hl. destruct (IH Hl) as (y & Hy & Hb). exists y.
    split; [by apply list_elem_of_further|done].
Qed.

Lemma any_of_false {A : Type} (body : A → option bool) (l : list A) :
  any_of body l = Some false → ∀ x, x ∈ l → body x = Some false.
Proof.
  induction l as [|x l IH]; simpl; intros Hl y Hy.
  - by apply elem_of_nil in Hy.
  - destruct (body x) as [[]|] eqn:Hx; [done| |done].
    apply elem_of_cons in Hy as [->|Hy]; [done|by apply IH].
Qed.

Lemma any_of_total {A : Type} (body : A → option bool) (l : list A) :
  (∀ x, x ∈ l → is_Some (body x)) → is_Some (any_of body l).
Proof.
  induction l as [|x l IH]; simpl; intros Hall; [done|].
  destruct (Hall x) as [[] ->]; [apply list_elem_of_here|done|].
  apply IH. intros y Hy. by apply Hall, list_elem_of_further.
Qed.

Section Includes.
Variable h : gmap ref Module.

Lemma includes_of_outside (this : ref) :
  this ∉ dom h → includes_of h this = [].
Proof.
  intros Hd. apply not_elem_of_dom in Hd. unfold includes_of. by rewrite Hd.
Qed.

(** A positive answer of the probe is a path of [includes] edges. *)
Lemma hasInclude_sound (fuel : nat) (this module : ref) :
  hasInclude fuel h this module = Some true →
  rtc (includes_edge h) this module.
Proof.
  revert this. induction fuel as [|fuel IH]; intros this; simpl; [done|].
  destruct (decide (module = this)) as [->|Hne]; [done|].
  intros Hany. apply any_of_true in Hany as (x & Hx & Hb).
  apply rtc_l with x; [exact Hx|by apply IH].
Qed.

(** A negative answer means that there is no such path. *)
Lemma hasInclude_complete (fuel : nat) (this module : ref) :
  hasInclude fuel h this module = Some false →
  ¬ rtc (includes_edge h) this module.
Proof.
  revert this. induction fuel as [|fuel IH]; intros this; simpl; [done|].
  destruct (decide (module = this)) as [->|Hne]; [done|].
  intros Hany Hreach. pose proof (any_of_false _ _ Hany) as Hall.
  inversion Hreach as [|? y ? Hedge Hrest]; subst; [done|].
  apply (IH y); [by apply Hall|done].
Qed.

(** On an acyclic [includes] graph the probe returns: the modules on the
    call stack are pairwise distinct modules of the store. *)
Lemma hasInclude_total_stack (fuel : nat) :
  acyclic_includes h →
  ∀ (this module : ref) (stack : gset ref),
    stack ⊆ dom h →
    (∀ a, a ∈ stack → tc (includes_edge h) a this) →
    size (dom h) < fuel + size stack →
    is_Some (hasInclude fuel h this module).
Proof.
  intros Hacyc. induction fuel as [|fuel IH];
    intros this module stack Hsub Hanc Hlt.
  - pose proof (subseteq_size _ _ Hsub). simpl in Hlt. lia.
  - simpl. destruct (decide (module = this)); [done|].
    destruct (decide (this ∈ dom h)) as [Hd|Hd];
      [|by rewrite (includes_of_outside _ Hd)].
    assert (this ∉ stack) as Hfresh.
    { intros Hin. exact (Hacyc this (Hanc this Hin)). }
    apply any_of_total. intros c Hc.
    apply (IH c module ({[this]} ∪ stack)).
    + apply union_subseteq. split; [|done]. by apply singleton_subseteq_l.
    + intros a Ha. apply elem_of_union in Ha as [Ha|Ha].
      * apply elem_of_singleton in Ha as ->. by apply tc_once.
      * apply tc_r with this; [by apply Hanc|done].
    + rewrite size_union by (apply disjoint_singleton_l; done).
      rewrite size_singleton. lia.
Qed.

Lemma hasInclude_total (fuel : nat) (this module : ref) :
  acyclic_includes h → size (dom h) < fuel →
  is_Some (hasInclude fuel h this module).
Proof.
  intros Hacyc Hlt. apply (hasInclude_total_stack fuel Hacyc this module ∅).
  - apply empty_subseteq.
  - intros a Ha. by apply not_elem_of_empty in Ha.
  - rewrite size_empty. lia.
Qed.

Lemma hasInclude_reach (fuel : nat) (this module : ref) :
  acyclic_includes h → size (dom h) < fuel →
  rtc (includes_edge h) this module →
  hasInclude fuel h this module = Some true.
Proof.
  intros Hacyc Hlt Hreach.
  destruct (hasInclude_total fuel this module Hacyc Hlt) as [[] Hb]; [done|].
  by apply hasInclude_complete in Hb.
Qed.

Lemma hasInclude_unreach (fuel : nat) (this module : ref) :
  acyclic_includes h → size (dom h) < fuel →
  ¬ rtc (includes_edge h) this module →
  hasInclude fuel h this module = Some false.
Proof.
  intros Hacyc Hlt Hreach.
  destruct (hasInclude_total fuel this module Hacyc Hlt) as [[] Hb]; [|done].
  by apply hasInclude_sound in Hb.
Qed.
End Includes.

(** ** The atomic steps of resolution *)

Lemma dep_on_steps (this module : ref) (source : string) (w : World) :
  rtc step w (dep_on this module source w).2.
Proof.
  unfold dep_on, file_dep.
  destruct (heap w !! module) as [m'|]; [|done].
  destruct (truthy (srcPath m')); [|done].
  destruct (heap w !! this) as [m|]; [|done].
  destruct (file m); [|done]. simpl. apply rtc_once, step_dep.
Qed.

Lemma import_steps (this module : ref) (w : World) :
  rtc step w (import this module w).2.
Proof.
  unfold import. destruct (decide (module = this)); [done|].
  destruct (heap w !! this) as [m|] eqn:Hm; [|done].
  eapply rtc_l; [by apply step_imports|apply dep_on_steps].
Qed.

Lemma exclude_steps (this module : ref) (w : World) :
  rtc step w (exclude this module w).2.
Proof.
  unfold exclude. destruct (decide (module = this)); [done|].
  destruct (heap w !! this) as [m|] eqn:Hm; [|done].
  eapply rtc_l; [by apply step_excludes|apply dep_on_steps].
Qed.

Lemma run_callback_steps (this : ref) (cb : Callback) (arg : option ref)
    (w : World) :
  rtc step w (run_callback this cb arg w).2.
Proof.
  unfold run_callback.
  eapply rtc_l; [apply (step_trace w (this, cb, arg))|].
  destruct arg as [module|]; [|done].
  destruct cb; [apply import_steps|apply exclude_steps].
Qed.

(** A loop relates its first to its last world by whatever preorder its body
    respects. *)
Lemma for_each_preserves {A : Type} (R : relation World) `{!PreOrder R}
    (body : A → World → option (Res unit * World)) (l : list A) :
  (∀ x w r w', x ∈ l → body x w = Some (r, w') → R w w') →
  ∀ w r w', for_each body l w = Some (r, w') → R w w'.
Proof.
  induction l as [|x l IH]; intros Hbody w r w'; simpl.
  - by intros [= _ <-].
  - destruct (body x w) as [[[[]|e] w1]|] eqn:Hx; [| |done].
    + intros Hrest. trans w1.
      * eapply Hbody; [apply list_elem_of_here|done].
      * eapply IH; [|done]. intros y wa ra wb Hy. apply Hbody.
        by apply list_elem_of_further.
    + intros [= <- <-]. eapply Hbody; [apply list_elem_of_here|done].
Qed.

Lemma resolve_steps (fuel : nat) (this : ref) (w : World) (r : Res unit)
    (w' : World) :
  resolve fuel this w = Some (r, w') → rtc step w w'.
Proof.
  revert this w r w'. induction fuel as [|fuel IH]; intros this w r w'; [done|].
  simpl. destruct (heap w !! this) as [m|] eqn:Hm; [|by intros [= _ <-]].
  destruct (resolved m) eqn:Hres; [by intros [= _ <-]|].
  pose proof (step_resolved w this m Hm) as Hmark.
  destruct (requires m) as [reqs|]; [|intros [= _ <-]; by apply rtc_once].
  match goal with |- context [for_each ?b reqs ?w1] =>
    set (body := b); destruct (for_each body reqs w1) as [[r2 w2]|] eqn:Hloop
  end; [|done].
  assert (rtc step (store this (set_resolved true m) w) w2) as Hsteps.
  { eapply (for_each_preserves (rtc step)); [|exact Hloop].
    intros [path cb] wa ra wb _. unfold body. simpl.
    destruct (truthy path) as [p|].
    - destruct (getModuleFromPath (packer m) p) as [module|]; [|by intros [= _ <-]].
      destruct (resolve fuel module wa) as [[[[]|e] wc]|] eqn:Hrec; [| |done].
      + pose proof (run_callback_steps this cb (Some module) wc) as Hcb.
        destruct (run_callback this cb (Some module) wc) as [rc wd].
        intros [= _ <-]. trans wc; [by eapply IH|done].
      + intros [= _ <-]. by eapply IH.
    - pose proof (run_callback_steps this cb None wa) as Hcb.
      destruct (run_callback this cb None wa) as [rc wd]. by intros [= _ <-]. }
  destruct r2 as [[]|e].
  - destruct (heap w2 !! this) as [m2|] eqn:Hm2.
    + intros [= _ <-]. eapply rtc_l; [exact Hmark|]. eapply rtc_r; [exact Hsteps|].
      by apply step_shed.
    + intros [= _ <-]. by eapply rtc_l.
  - intros [= _ <-]. by eapply rtc_l.
Qed.

#[local] Instance grows_preorder : PreOrder grows.
Proof.
  split.
  - intros m. by split.
  - intros m1 m2 m3 [] []. split; [congruence..| | |auto].
    + by trans (imports m2).
    + by trans (excludes m2).
Qed.

#[local] Instance evolves_preorder : PreOrder evolves.
Proof.
  split.
  - intros w. split; [|done..]. intros r. reflexivity.
  - intros w1 w2 w3 [H1 ? ?] [H2 ? ?]. split.
    + intros r. trans (heap w2 !! r); [apply H1|apply H2].
    + by trans (deps w2).
    + by trans (trace w2).
Qed.

Lemma store_evolves (w : World) (this : ref) (m m' : Module) :
  heap w !! this = Some m → grows m m' → evolves w (store this m' w).
Proof.
  intros Hm Hg. split; [|done..]. intros r. simpl.
  destruct (decide (this = r)) as [<-|Hne].
  - rewrite lookup_insert_eq, Hm. by constructor.
  - rewrite lookup_insert_ne by done. reflexivity.
Qed.

Lemma step_evolves (w w' : World) : step w w' → evolves w w'.
Proof.
  destruct 1 as [w d|w e|w this m module Hm _|w this m module Hm _
                 |w this m Hm|w this m Hm].
  - split; [intros r; reflexivity| |done]. simpl. by apply prefix_app_r.
  - split; [intros r; reflexivity|done|]. simpl. by apply prefix_app_r.
  - apply (store_evolves _ _ m); [done|]. split; simpl; try done.
    by apply prefix_app_r.
  - apply (store_evolves _ _ m); [done|]. split; simpl; try done.
    by apply prefix_app_r.
  - apply (store_evolves _ _ m); [done|]. by split.
  - apply (store_evolves _ _ m); [done|]. by split.
Qed.

Lemma steps_evolve (w w' : World) : rtc step w w' → evolves w w'.
Proof.
  induction 1 as [|w1 w2 w3 Hstep _ IH]; [reflexivity|].
  trans w2; [by apply step_evolves|done].
Qed.

Lemma resolve_evolves (fuel : nat) (this : ref) (w : World) (r : Res unit)
    (w' : World) :
  resolve fuel this w = Some (r, w') → evolves w w'.
Proof. intros Hr. eapply steps_evolve, resolve_steps, Hr. Qed.

Lemma evolves_lookup (w w' : World) (r : ref) (m : Module) :
  evolves w w' → heap w !! r = Some m →
  ∃ m', heap w' !! r = Some m' ∧ grows m m'.
Proof.
  intros [Hh _ _] Hm. specialize (Hh r). rewrite Hm in Hh.
  inversion Hh as [? m' Hg|]; subst. by exists m'.
Qed.

Lemma evolves_dom (w w' : World) :
  evolves w w' → dom (heap w') = dom (heap w).
Proof.
  intros [Hh _ _]. apply set_eq. intros r. rewrite !elem_of_dom.
  specialize (Hh r). destruct Hh; [by split|]. split; intros [? [=]].
Qed.

Lemma evolves_includes_of (w w' : World) (r : ref) :
  evolves w w' → includes_of (heap w') r = includes_of (heap w) r.
Proof.
  intros [Hh _ _]. specialize (Hh r). unfold includes_of.
  inversion Hh as [? ? Hg|]; [|done]. simpl. apply Hg.
Qed.

(** ** The resolver *)

Lemma resolve_unfold (fuel : nat) (this : ref) (w : World) :
  resolve (S fuel) this w =
  match heap w !! this with
  | None => Some (Throw TypeError, w)
  | Some m =>
    if resolved m then Some (Ok tt, w)
    else
      let w1 := store this (set_resolved true m) w in
      match requires m with
      | None => Some (Throw TypeError, w1)
      | Some reqs =>
        match for_each (resolve_req fuel this m) reqs w1 with
        | Some (Ok _, w2) =>
          match heap w2 !! this with
          | Some m2 =>
            Some (Ok tt, store this (set_file None (set_requires None m2)) w2)
          | None => Some (Throw TypeError, w2)
          end
        | other => other
        end
      end
  end.
Proof. reflexivity. Qed.

Lemma resolve_req_evolves (fuel : nat) (this : ref) (m : Module)
    (req : option string * Callback) (w : World) (r : Res unit) (w' : World) :
  resolve_req fuel this m req w = Some (r, w') → evolves w w'.
Proof.
  unfold resolve_req. destruct (truthy req.1) as [p|].
  - destruct (getModuleFromPath (packer m) p) as [module|]; [|by intros [= _ <-]].
    destruct (resolve fuel module w) as [[[[]|e] wc]|] eqn:Hrec; [| |done].
    + pose proof (run_callback_steps this req.2 (Some module) wc) as Hcb.
      destruct (run_callback this req.2 (Some module) wc) as [rc wd].
      intros [= _ <-]. trans wc; [by eapply resolve_evolves|].
      by apply steps_evolve.
    + intros [= _ <-]. by eapply resolve_evolves.
  - pose proof (run_callback_steps this req.2 None w) as Hcb.
    destruct (run_callback this req.2 None w) as [rc wd].
    intros [= _ <-]. by apply steps_evolve.
Qed.

Lemma resolve_loop_evolves (fuel : nat) (this : ref) (m : Module)
    (reqs : list (option string * Callback)) (w : World) (r : Res unit)
    (w' : World) :
  for_each (resolve_req fuel this m) reqs w = Some (r, w') → evolves w w'.
Proof.
  apply (for_each_preserves evolves). intros x wa ra wb _.
  apply resolve_req_evolves.
Qed.

(** A call that has returned leaves the module resolved. *)
Lemma resolve_ok_resolved (fuel : nat) (this : ref) (w w' : World) :
  resolve fuel this w = Some (Ok tt, w') →
  ∃ m', heap w' !! this = Some m' ∧ resolved m' = true.
Proof.
  destruct fuel as [|fuel]; [done|]. rewrite resolve_unfold.
  destruct (heap w !! this) as [m|] eqn:Hm; [|done].
  destruct (resolved m) eqn:Hres; [intros [= <-]; by exists m|].
  destruct (requires m) as [reqs|]; [|done]. simpl.
  destruct (for_each _ reqs _) as [[[[]|e] w2]|] eqn:Hloop; [|done..].
  apply resolve_loop_evolves in Hloop.
  destruct (evolves_lookup _ _ this (set_resolved true m) Hloop)
    as (m2 & Hm2 & Hg); [by apply lookup_insert_eq|].
  rewrite Hm2. intros [= <-]. eexists. split; [by apply lookup_insert_eq|].
  simpl. by apply Hg.
Qed.

Lemma elem_of_unresolved (h : gmap ref Module) (r : ref) :
  r ∈ unresolved h ↔ ∃ m, h !! r = Some m ∧ resolved m = false.
Proof.
  unfold unresolved. rewrite elem_of_dom. split.
  - intros [m Hm]. apply map_lookup_filter_Some in Hm. by exists m.
  - intros (m & Hm & Hres). exists m. by apply map_lookup_filter_Some.
Qed.

Lemma evolves_unresolved (w w' : World) :
  evolves w w' → unresolved (heap w') ⊆ unresolved (heap w).
Proof.
  intros [Hh _ _] r. rewrite !elem_of_unresolved. intros (m' & Hm' & Hres).
  specialize (Hh r). rewrite Hm' in Hh. inversion Hh as [m ? Hg Heq|]; subst.
  exists m. split; [done|]. destruct (resolved m) eqn:Hr; [|done].
  rewrite (grows_resolved _ _ Hg) in Hres; done.
Qed.

Lemma mark_unresolved (w : World) (this : ref) (m : Module) :
  heap w !! this = Some m → resolved m = false →
  size (unresolved (heap (store this (set_resolved true m) w)))
  < size (unresolved (heap w)).
Proof.
  intros Hm Hres. apply subset_size. split.
  - apply evolves_unresolved, step_evolves. by apply step_resolved.
  - intros Hsub. specialize (Hsub this). rewrite !elem_of_unresolved in Hsub.
    destruct Hsub as (m' & Hm' & Hres'); [by exists m|].
    simpl in Hm'. rewrite lookup_insert_eq in Hm'. by injection Hm' as <-.
Qed.

Lemma for_each_total {A : Type} (P : World → Prop)
    (body : A → World → option (Res unit * World)) (l : list A) :
  (∀ x w, P w → ∃ r w', body x w = Some (r, w') ∧ P w') →
  ∀ w, P w → ∃ r w', for_each body l w = Some (r, w') ∧ P w'.
Proof.
  intros Hbody. induction l as [|x l IH]; intros w Hw; simpl; [by eauto|].
  destruct (Hbody x w Hw) as ([[]|e] & w1 & -> & Hw1); [by apply IH|by eauto].
Qed.

(** [resolve] returns on every world: marking a module resolved before its
    dependencies are visited bounds the recursion, cyclic declarations
    included. *)
Lemma resolve_total (fuel : nat) (this : ref) (w : World) :
  size (unresolved (heap w)) < fuel → is_Some (resolve fuel this w).
Proof.
  revert this w. induction fuel as [|fuel IH]; intros this w Hlt; [lia|].
  rewrite resolve_unfold. destruct (heap w !! this) as [m|] eqn:Hm; [|done].
  destruct (resolved m) eqn:Hres; [done|].
  destruct (requires m) as [reqs|]; [|done]. simpl.
  pose proof (mark_unresolved w this m Hm Hres) as Hmark.
  destruct (for_each_total (λ w', size (unresolved (heap w')) < fuel)
              (resolve_req fuel this m) reqs) with
    (w := store this (set_resolved true m) w) as (r2 & w2 & -> & _).
  - intros req wa Ha. destruct (resolve_req fuel this m req wa)
      as [[r' w']|] eqn:Hreq.
    + exists r', w'. split; [done|]. apply resolve_req_evolves in Hreq.
      pose proof (subseteq_size _ _ (evolves_unresolved _ _ Hreq)). lia.
    + exfalso. unfold resolve_req in Hreq.
      destruct (truthy req.1) as [p|]; [|done].
      destruct (getModuleFromPath (packer m) p) as [module|]; [|done].
      destruct (IH module wa Ha) as [[[[]|?] ?] Hrec]; by rewrite Hrec in Hreq.
  - lia.
  - destruct r2 as [[]|e]; [|done]. by destruct (heap w2 !! this).
Qed.

Lemma size_unresolved_le (h : gmap ref Module) :
  size (unresolved h) ≤ size (dom h).
Proof.
  apply subseteq_size. intros r. rewrite elem_of_unresolved, elem_of_dom.
  intros (m & -> & _). by eexists.
Qed.

Lemma for_each_ok_split {A : Type}
    (body : A → World → option (Res unit * World)) (l1 : list A) (x : A)
    (l2 : list A) (w w' : World) :
  for_each body (l1 ++ x :: l2) w = Some (Ok tt, w') →
  ∃ wa wb, for_each body l1 w = Some (Ok tt, wa) ∧
           body x wa = Some (Ok tt, wb) ∧
           for_each body l2 wb = Some (Ok tt, w').
Proof.
  revert w. induction l1 as [|y l1 IH]; intros w; simpl.
  - destruct (body x w) as [[[[]|e] w1]|] eqn:Hx; [|done..].
    intros Hrest. by exists w, w1.
  - destruct (body y w) as [[[[]|e] w1]|] eqn:Hy; [|done..].
    intros Hrest. destruct (IH _ Hrest) as (wa & wb & H1 & H2 & H3).
    by exists wa, wb.
Qed.

Lemma run_callback_null (this : ref) (cb : Callback) (w : World) :
  run_callback this cb None w =
  (Ok tt, mkWorld (heap w) (deps w) (trace w ++ [(this, cb, None)])).
Proof. reflexivity. Qed.

Lemma resolve_null_target_logged (fuel : nat) (this : ref) (w w' : World)
    (m : Module) (reqs : list (option string * Callback))
    (path : option string) (cb : Callback) :
  heap w !! this = Some m → resolved m = false → requires m = Some reqs →
  (path, cb) ∈ reqs → truthy path = None →
  resolve fuel this w = Some (Ok tt, w') →
  ∃ before after, trace w' = trace w ++ before ++ (this, cb, None) :: after.
Proof.
  intros Hm Hres Hreqs Hin Hnull. destruct fuel as [|fuel]; [done|].
  rewrite resolve_unfold, Hm, Hres, Hreqs. simpl.
  destruct (for_each _ reqs _) as [[[[]|e] w2]|] eqn:Hloop; [|done..].
  destruct (heap w2 !! this) as [m2|]; [|done]. intros [= <-]. simpl.
  apply list_elem_of_split in Hin as (l1 & l2 & ->).
  apply for_each_ok_split in Hloop as (wa & wb & H1 & Hx & H2).
  apply resolve_loop_evolves in H1 as [_ _ [before Hbefore]].
  apply resolve_loop_evolves in H2 as [_ _ [after Hafter]].
  unfold resolve_req in Hx. simpl in Hx. rewrite Hnull, run_callback_null in Hx.
  injection Hx as <-. simpl in *. exists before, after.
  by rewrite Hafter, Hbefore, <- !app_assoc.
Qed.


(** ** Resolution under the caller's contract *)

Lemma for_each_invariant {A : Type} (P : World → Prop)
    (body : A → World → option (Res unit * World)) (l : list A) :
  (∀ x w r w', x ∈ l → P w → body x w = Some (r, w') → P w') →
  ∀ w r w', P w → for_each body l w = Some (r, w') → P w'.
Proof.
  induction l as [|x l IH]; intros Hbody w r w' Hw; simpl.
  - by intros [= _ <-].
  - destruct (body x w) as [[[[]|e] w1]|] eqn:Hx; [| |done].
    + apply IH.
      * intros y wa ra wb Hy. apply Hbody. by apply list_elem_of_further.
      * eapply Hbody; [apply list_elem_of_here|done..].
    + intros [= <- <-]. eapply Hbody; [apply list_elem_of_here|done..].
Qed.

Lemma dep_on_result (this module : ref) (source : string) (w : World) :
  heap (dep_on this module source w).2 = heap w.
Proof.
  unfold dep_on, file_dep. destruct (heap w !! module) as [m'|]; [|done].
  destruct (truthy (srcPath m')); [|done].
  destruct (heap w !! this) as [m|]; [|done]. by destruct (file m).
Qed.

(** A callback writes to no module but its owner. *)
Lemma run_callback_other (this : ref) (cb : Callback) (arg : option ref)
    (w : World) (x : ref) :
  x ≠ this → heap (run_callback this cb arg w).2 !! x = heap w !! x.
Proof.
  intros Hne. unfold run_callback. destruct arg as [module|]; [|done].
  destruct cb; unfold import, exclude;
    (destruct (decide (module = this)); [done|]); simpl;
    (destruct (heap w !! this) as [m|]; [|done]);
    rewrite dep_on_result; simpl; by rewrite lookup_insert_ne.
Qed.

(** [resolve] writes to no module that is already resolved. *)
Lemma resolve_frame (fuel : nat) (this : ref) (w : World) (r : Res unit)
    (w' : World) (x : ref) (mx : Module) :
  resolve fuel this w = Some (r, w') →
  heap w !! x = Some mx → resolved mx = true → heap w' !! x = Some mx.
Proof.
  revert this w r w'. induction fuel as [|fuel IH]; intros this w r w'; [done|].
  rewrite resolve_unfold. intros Hrun Hx Hresx.
  destruct (heap w !! this) as [m|] eqn:Hm; [|by injection Hrun as _ <-].
  destruct (resolved m) eqn:Hres; [by injection Hrun as _ <-|].
  assert (x ≠ this) as Hne by (intros ->; congruence).
  simpl in Hrun.
  assert (heap (store this (set_resolved true m) w) !! x = Some mx) as Hx1.
  { simpl. by rewrite lookup_insert_ne. }
  destruct (requires m) as [reqs|]; [|by injection Hrun as _ <-].
  destruct (for_each _ reqs _) as [[r2 w2]|] eqn:Hloop; [|done].
  assert (heap w2 !! x = Some mx) as Hx2.
  { eapply (for_each_invariant (λ wa, heap wa !! x = Some mx)); [|exact Hx1|exact Hloop].
    intros [path cb] wa ra wb _ Ha. unfold resolve_req. simpl.
    destruct (truthy path) as [p|].
    - destruct (getModuleFromPath (packer m) p) as [module|]; [|by intros [= _ <-]].
      destruct (resolve fuel module wa) as [[[[]|e] wc]|] eqn:Hrec; [| |done].
      + pose proof (run_callback_other this cb (Some module) wc x Hne) as Hcb.
        destruct (run_callback this cb (Some module) wc) as [rc wd].
        intros [= _ <-]. simpl in Hcb. rewrite Hcb. by eapply IH.
      + intros [= _ <-]. by eapply IH.
    - pose proof (run_callback_other this cb None wa x Hne) as Hcb.
      destruct (run_callback this cb None wa) as [rc wd].
      intros [= _ <-]. simpl in Hcb. by rewrite Hcb. }
  destruct r2 as [[]|e]; [|by injection Hrun as _ <-].
  destruct (heap w2 !! this) as [m2|]; [|by injection Hrun as _ <-].
  injection Hrun as _ <-. simpl. by rewrite lookup_insert_ne.
Qed.

Lemma ready_lookup (h : gmap ref Module) (r : ref) (m : Module) :
  ready h → h !! r = Some m → module_ready (dom h) m = true.
Proof. intros Hready Hm. by apply (Hready r). Qed.

(** Rewriting a module that is resolved keeps the contract. *)
Lemma ready_store_resolved (h : gmap ref Module) (this : ref) (m m' : Module) :
  ready h → h !! this = Some m → resolved m' = true →
  ready (<[this := m']> h).
Proof.
  intros Hready Hm Hres. unfold ready.
  rewrite dom_insert_lookup_L by (by eexists).
  apply map_Forall_insert_2; [|done].
  unfold module_ready. by rewrite Hres.
Qed.

Lemma unresolved_store_resolved (h : gmap ref Module) (this : ref)
    (m' : Module) :
  resolved m' = true → unresolved (<[this := m']> h) ⊆ unresolved h.
Proof.
  intros Hres x. rewrite !elem_of_unresolved. intros (mx & Hmx & Hresx).
  destruct (decide (this = x)) as [<-|Hne].
  - rewrite lookup_insert_eq in Hmx. injection Hmx as <-. congruence.
  - rewrite lookup_insert_ne in Hmx by done. by exists mx.
Qed.

(** With a present [file] and a stored target, the constructor's callbacks
    return; they rewrite at most their owner, keeping its [file] and
    [resolved]. *)
Lemma run_callback_ok (this : ref) (cb : Callback) (module : ref) (w : World)
    (m : Module) (f : File) :
  heap w !! this = Some m → file m = Some f → is_Some (heap w !! module) →
  ∃ w' m', run_callback this cb (Some module) w = (Ok tt, w') ∧
           heap w' = <[this := m']> (heap w) ∧
           file m' = file m ∧ resolved m' = resolved m.
Proof.
  intros Hm Hfile [mm Hmm]. unfold run_callback.
  assert (∀ (m1 : Module) (src : string) (w1 : World),
    heap w1 = <[this := m1]> (heap w) → file m1 = Some f → module ≠ this →
    ∃ w', dep_on this module src w1 = (Ok tt, w') ∧ heap w' = heap w1) as Hdep.
  { intros m1 src w1 Hh Hf Hne. unfold dep_on, file_dep.
    rewrite Hh, lookup_insert_ne, Hmm by done.
    destruct (truthy (srcPath mm)); [|by eexists].
    rewrite lookup_insert_eq, Hf. by eexists. }
  destruct cb; unfold import, exclude;
    (destruct (decide (module = this)) as [Heq|Hne];
     [eexists _, m; split; [done|]; simpl; by rewrite insert_id|]);
    simpl; rewrite Hm.
  - edestruct (Hdep (set_imports (imports m ++ [module]) m)) as (w' & -> & Hh);
      [done..|].
    eexists _, _. split; [done|]. by rewrite Hh.
  - edestruct (Hdep (set_excludes (excludes m ++ [module]) m)) as (w' & -> & Hh);
      [done..|].
    eexists _, _. split; [done|]. by rewrite Hh.
Qed.

Lemma for_each_ok {A : Type} (P : World → Prop)
    (body : A → World → option (Res unit * World)) (l : list A) :
  (∀ x w, x ∈ l → P w → ∃ w', body x w = Some (Ok tt, w') ∧ P w') →
  ∀ w, P w → ∃ w', for_each body l w = Some (Ok tt, w') ∧ P w'.
Proof.
  induction l as [|x l IH]; intros Hbody w Hw; simpl; [by eauto|].
  destruct (Hbody x w) as (w1 & -> & Hw1); [apply list_elem_of_here|done|].
  apply IH; [|done]. intros y wa Hy. apply Hbody. by apply list_elem_of_further.
Qed.

(** Under the contract, [resolve] returns without raising. *)
Lemma resolve_returns_ok (fuel : nat) (this : ref) (w : World) :
  ready (heap w) → is_Some (heap w !! this) →
  size (unresolved (heap w)) < fuel →
  ∃ w', resolve fuel this w = Some (Ok tt, w') ∧ ready (heap w').
Proof.
  revert this w. induction fuel as [|fuel IH]; intros this w Hready [m Hm] Hlt;
    [lia|].
  rewrite resolve_unfold, Hm. destruct (resolved m) eqn:Hres; [by eauto|].
  pose proof (ready_lookup _ _ _ Hready Hm) as Hmod. unfold module_ready in Hmod.
  rewrite Hres in Hmod. simpl in Hmod. apply andb_prop in Hmod as [Hfile Hreqs].
  apply bool_decide_eq_true in Hfile as [f Hfile].
  destruct (requires m) as [reqs|]; [|done]. simpl.
  set (w1 := store this (set_resolved true m) w).
  set (J := λ wa : World,
         ready (heap wa) ∧ dom (heap wa) = dom (heap w) ∧
         size (unresolved (heap wa)) < fuel ∧
         ∃ ma, heap wa !! this = Some ma ∧ resolved ma = true ∧
               file ma = Some f).
  destruct (for_each_ok J (resolve_req fuel this m) reqs) with (w := w1)
    as (w2 & -> & Hready2 & _ & _ & m2 & Hm2 & Hres2 & _).
  - intros [path cb] wa Hin (Hra & Hdom & Hsize & ma & Hma & Hresa & Hfa).
    unfold resolve_req. simpl.
    rewrite forallb_forall in Hreqs.
    specialize (Hreqs (path, cb)). unfold declaration_ready in Hreqs.
    simpl in Hreqs. destruct (truthy path) as [p|].
    + destruct (getModuleFromPath (packer m) p) as [module|];
        [|by discriminate Hreqs; apply list_elem_of_In].
      assert (module ∈ dom (heap wa)) as Hknown.
      { rewrite Hdom. apply (bool_decide_eq_true _), Hreqs. by apply list_elem_of_In. }
      apply elem_of_dom in Hknown.
      destruct (IH module wa Hra Hknown Hsize) as (wb & Hrec & Hrb).
      rewrite Hrec.
      pose proof (resolve_evolves _ _ _ _ _ Hrec) as Hev.
      pose proof (resolve_frame _ _ _ _ _ this ma Hrec Hma Hresa) as Hmb.
      destruct (run_callback_ok this cb module wb ma f Hmb Hfa)
        as (wc & mc & -> & Hhc & Hfc & Hresc).
      { apply elem_of_dom. rewrite (evolves_dom _ _ Hev). by apply elem_of_dom. }
      exists wc. split; [done|]. unfold J. rewrite Hhc.
      split; [apply (ready_store_resolved _ _ ma); [done..|congruence]|].
      split; [rewrite dom_insert_lookup_L by (by eexists);
              by rewrite (evolves_dom _ _ Hev)|].
      split.
      * pose proof (subseteq_size _ _ (evolves_unresolved _ _ Hev)).
        pose proof (subseteq_size _ _
          (unresolved_store_resolved (heap wb) this mc ltac:(congruence))).
        lia.
      * exists mc. rewrite lookup_insert_eq. split; [done|]. split; congruence.
    + exists (mkWorld (heap wa) (deps wa) (trace wa ++ [(this, cb, None)])).
      split; [done|]. unfold J. simpl. split; [done|]. split; [done|].
      split; [done|]. by exists ma.
  - unfold J, w1. simpl.
    split; [apply (ready_store_resolved _ _ m); done|].
    split; [apply dom_insert_lookup_L; by eexists|].
    split; [pose proof (mark_unresolved w this m Hm Hres); simpl in *; lia|].
    eexists. rewrite lookup_insert_eq. by split.
  - rewrite Hm2. eexists. split; [done|]. simpl.
    by apply (ready_store_resolved _ _ m2).
Qed.

(** C4: once [resolve()] has returned on a module, a second call returns at
    once (no recursion is needed) and the world after it is the world before
    it: the relation lists of every module are the same and the log of
    callback invocations has no new entry. *)
Theorem resolve_idempotent (fuel fuel' : nat) (this : ref) (w w' : World) :
  resolve fuel this w = Some (Ok tt, w') →
  resolve (S fuel') this w' = Some (Ok tt, w').
Proof.
  intros Hfirst. destruct (resolve_ok_resolved _ _ _ _ Hfirst) as (m' & Hm' & Hres).
  by rewrite resolve_unfold, Hm', Hres.
Qed.

(** C10: when [resolve()] returns on a module that was unresolved, the module
    has no [requires] and no [file], its [resolved] flag is true, its packer,
    options, paths and [includes] are what they were, and its [imports] and
    [excludes] are the old lists with what the callbacks appended; and the
    call does return when the declared targets exist. *)
Theorem resolve_sheds_state (fuel : nat) (this : ref) (w : World)
    (m : Module) :
  heap w !! this = Some m → resolved m = false →
  (∀ w', resolve fuel this w = Some (Ok tt, w') →
     ∃ m', heap w' !! this = Some m' ∧
           requires m' = None ∧ file m' = None ∧ resolved m' = true ∧
           packer m' = packer m ∧ options m' = options m ∧
           srcPath m' = srcPath m ∧ destPath m' = destPath m ∧
           includes m' = includes m ∧
           imports m `prefix_of` imports m' ∧
           excludes m `prefix_of` excludes m') ∧
  (ready (heap w) → size (unresolved (heap w)) < fuel →
   ∃ w', resolve fuel this w = Some (Ok tt, w')).
Proof.
  intros Hm Hres. split.
  - intros w' Hrun.
    destruct (evolves_lookup _ _ this m (resolve_evolves _ _ _ _ _ Hrun) Hm)
      as (m' & Hm' & [? ? ? ? ? ? ? _]).
    exists m'. split; [done|].
    destruct (resolve_ok_resolved _ _ _ _ Hrun) as (m'' & Hm'' & Hres').
    rewrite Hm' in Hm''. injection Hm'' as <-.
    destruct fuel as [|fuel]; [done|].
    rewrite resolve_unfold, Hm, Hres in Hrun. simpl in Hrun.
    destruct (requires m) as [reqs|]; [|done].
    destruct (for_each _ reqs _) as [[[[]|e] w2]|]; [|done..].
    destruct (heap w2 !! this) as [m2|]; [|done]. injection Hrun as <-.
    simpl in Hm'. rewrite lookup_insert_eq in Hm'. injection Hm' as <-.
    by repeat split.
  - intros Hready Hfuel.
    destruct (resolve_returns_ok fuel this w Hready) as (w' & Hrun & _);
      [by eexists|done|by exists w'].
Qed.

(** C7: processing a pending declaration without a target invokes its
    callback with [null] and only extends the invocation log (no store, hence
    no relation list of any module, is written); when [resolve()] returns,
    every such declaration of the module has had its callback invoked with
    [null] during the call; and the call does return when the declared
    targets exist. *)
Theorem null_target_skip (fuel : nat) (this : ref) (w : World)
    (m : Module) (reqs : list (option string * Callback))
    (path : option string) (cb : Callback) :
  heap w !! this = Some m → resolved m = false → requires m = Some reqs →
  (path, cb) ∈ reqs → truthy path = None →
  (∀ w0, resolve_req fuel this m (path, cb) w0 =
         Some (Ok tt, mkWorld (heap w0) (deps w0)
                              (trace w0 ++ [(this, cb, None)]))) ∧
  (∀ w', resolve fuel this w = Some (Ok tt, w') →
         ∃ before after,
           trace w' = trace w ++ before ++ (this, cb, None) :: after) ∧
  (ready (heap w) → size (unresolved (heap w)) < fuel →
   ∃ w', resolve fuel this w = Some (Ok tt, w')).
Proof.
  intros Hm Hres Hreqs Hin Hnull. split; [|split].
  - intros w0. unfold resolve_req. simpl. by rewrite Hnull.
  - intros w' Hrun. by eapply resolve_null_target_logged.
  - intros Hready Hfuel.
    destruct (resolve_returns_ok fuel this w Hready) as (w' & Hrun & _);
      [by eexists|done|by exists w'].
Qed.

(** C9: [require] on a module whose [resolved] flag is true raises the
    assertion failure and writes nothing: the world, and with it the pending
    list, is as it was, so no declaration is appended that could be processed
    later.  Once [requires] has been deleted the call raises and writes
    nothing whatever the host's [console.assert] does. *)
Theorem require_after_resolved_fails (this : ref) (path : option string)
    (cb : Callback) (w : World) (m : Module) :
  heap w !! this = Some m → resolved m = true →
  require this path cb w = (Throw AssertionError, w) ∧
  (requires m = None →
   ∀ host_assert, ∃ e, require_with host_assert this path cb w = (Throw e, w)).
Proof.
  intros Hm Hres. unfold require, require_with. rewrite Hm, Hres. split; [done|].
  intros Hreq host_assert. rewrite Hreq.
  destruct (host_assert (negb true)) as [[]|e]; by eexists.
Qed.

(** ** Graph invariants along call sequences *)

Lemma includes_of_store (h : gmap ref Module) (this r : ref) (m : Module) :
  includes_of (<[this := m]> h) r =
  if decide (this = r) then includes m else includes_of h r.
Proof.
  unfold includes_of. destruct (decide (this = r)) as [<-|Hne].
  - by rewrite lookup_insert_eq.
  - by rewrite lookup_insert_ne.
Qed.

Lemma acyclic_same_includes (h h' : gmap ref Module) :
  (∀ r, includes_of h' r = includes_of h r) →
  acyclic_includes h → acyclic_includes h'.
Proof.
  intros Hsame Hacyc x Hcyc. apply (Hacyc x).
  assert (∀ a b, tc (includes_edge h') a b → tc (includes_edge h) a b) as Hsub.
  { intros a b Hab. induction Hab as [a b Hab|a b c Hab _ IH].
    - apply tc_once. unfold includes_edge in *. by rewrite <- Hsame.
    - eapply tc_l; [|exact IH]. unfold includes_edge in *. by rewrite <- Hsame. }
  by apply Hsub.
Qed.

(** A new edge [t → m] closes no cycle when [t] is not reachable from [m]. *)
Lemma acyclic_add_edge (h : gmap ref Module) (t m : ref) (mt : Module) :
  h !! t = Some mt → ¬ rtc (includes_edge h) m t →
  acyclic_includes h →
  acyclic_includes (<[t := set_includes (includes mt ++ [m]) mt]> h).
Proof.
  intros Hmt Hunreach Hacyc.
  set (h' := <[t := set_includes (includes mt ++ [m]) mt]> h).
  assert (∀ x y, includes_edge h' x y →
                 includes_edge h x y ∨ (x = t ∧ y = m)) as Hedge.
  { intros x y. unfold includes_edge, h'. rewrite includes_of_store.
    destruct (decide (t = x)) as [<-|Hne]; [|by left]. simpl.
    intros Hin. apply elem_of_app in Hin as [Hin|Hin].
    - left. unfold includes_of. by rewrite Hmt.
    - right. by apply list_elem_of_singleton in Hin. }
  assert (∀ x y, tc (includes_edge h') x y →
                 tc (includes_edge h) x y ∨
                 (rtc (includes_edge h) x t ∧ rtc (includes_edge h) m y))
    as Hpath.
  { intros x y Hxy. induction Hxy as [a b Hab|a b c Hab _ IH].
    - destruct (Hedge _ _ Hab) as [?|[-> ->]]; [left; by apply tc_once|].
      right. split; reflexivity.
    - destruct (Hedge _ _ Hab) as [Hold|[-> ->]].
      + destruct IH as [IH|[IH1 IH2]].
        * left. by eapply tc_l.
        * right. split; [by eapply rtc_l|done].
      + right. split; [reflexivity|].
        destruct IH as [IH|[_ IH]]; [by apply tc_rtc|done]. }
  intros x Hcyc. destruct (Hpath _ _ Hcyc) as [Hold|[Hxt Hmx]].
  - by apply (Hacyc x).
  - apply Hunreach. by etrans.
Qed.

Lemma no_self_edges_store (h : gmap ref Module) (this : ref) (m : Module) :
  no_self_edges h →
  this ∉ includes m → this ∉ imports m → this ∉ excludes m →
  no_self_edges (<[this := m]> h).
Proof.
  intros Hno Hinc Himp Hexc r m'. destruct (decide (this = r)) as [<-|Hne].
  - rewrite lookup_insert_eq. by intros [= <-].
  - rewrite lookup_insert_ne by done. apply Hno.
Qed.

Lemma step_no_self_edges (w w' : World) :
  step w w' → no_self_edges (heap w) → no_self_edges (heap w').
Proof.
  destruct 1 as [w d|w e|w this m module Hm Hne|w this m module Hm Hne
                 |w this m Hm|w this m Hm]; intros Hno; try done;
    destruct (Hno _ _ Hm) as (Hinc & Himp & Hexc);
    apply no_self_edges_store; simpl; try done.
  - rewrite elem_of_app, list_elem_of_singleton. intros [?|?]; [done|].
    by apply Hne.
  - rewrite elem_of_app, list_elem_of_singleton. intros [?|?]; [done|].
    by apply Hne.
Qed.

Lemma steps_no_self_edges (w w' : World) :
  rtc step w w' → no_self_edges (heap w) → no_self_edges (heap w').
Proof.
  induction 1 as [|w1 w2 w3 Hstep _ IH]; [done|].
  intros Hno. by apply IH, (step_no_self_edges w1).
Qed.

(** Rewriting a stored module without touching its [includes] keeps the
    graph and the set of modules. *)
Lemma acyclic_store_same (h : gmap ref Module) (this : ref) (m m' : Module) :
  h !! this = Some m → includes m' = includes m →
  acyclic_includes h →
  acyclic_includes (<[this := m']> h) ∧ dom (<[this := m']> h) = dom h.
Proof.
  intros Hm Hinc Hacyc. split.
  - apply (acyclic_same_includes h); [|done]. intros r.
    rewrite includes_of_store. destruct (decide (this = r)) as [<-|]; [|done].
    unfold includes_of. by rewrite Hm.
  - apply dom_insert_lookup_L. by eexists.
Qed.

(** Adding a module whose [includes] list is empty. *)
Lemma acyclic_store_new (h : gmap ref Module) (this : ref) (m' : Module) :
  includes_of h this = [] → includes m' = [] →
  acyclic_includes h → acyclic_includes (<[this := m']> h).
Proof.
  intros Hold Hinc Hacyc.
  apply (acyclic_same_includes h); [|done]. intros r.
  rewrite includes_of_store. destruct (decide (this = r)) as [<-|]; [|done].
  by rewrite Hinc, Hold.
Qed.

Lemma steps_acyclic (w w' : World) :
  rtc step w w' → acyclic_includes (heap w) →
  acyclic_includes (heap w') ∧ dom (heap w') = dom (heap w).
Proof.
  intros Hsteps Hacyc. pose proof (steps_evolve _ _ Hsteps) as Hev. split.
  - apply (acyclic_same_includes (heap w)); [|done]. intros r.
    by apply evolves_includes_of.
  - by apply evolves_dom.
Qed.

Lemma require_acyclic (this : ref) (path : option string) (cb : Callback)
    (w : World) :
  acyclic_includes (heap w) →
  acyclic_includes (heap (require this path cb w).2) ∧
  dom (heap (require this path cb w).2) = dom (heap w).
Proof.
  intros Hok. unfold require, require_with. destruct (heap w !! this) as [m|] eqn:Hm; [|done].
  destruct (console_assert _); [|done].
  destruct (requires m) as [reqs|]; [|done]. simpl.
  by apply (acyclic_store_same _ _ m).
Qed.

(** The constructor adds one module, with empty relation lists, under a
    reference that was not in use. *)
Lemma constructor_heap (path_resolve : list string → string)
    (pk : gmap string ref) (f : File) (opts : option ModuleOptions)
    (w : World) :
  ∃ m', heap (constructor path_resolve pk f opts w).2
        = <[fresh (dom (heap w)) := m']> (heap w) ∧
        includes m' = [] ∧ imports m' = [] ∧ excludes m' = [].
Proof.
  unfold constructor. set (this := fresh (dom (heap w))).
  set (Q := λ r : Res unit * World,
         ∃ m', heap r.2 = <[this := m']> (heap w) ∧
               includes m' = [] ∧ imports m' = [] ∧ excludes m' = []).
  assert (∀ cb (paths : list string) r, Q r →
    Q (foldl (λ acc path,
                and_then acc
                  (require this
                     (Some (resolvePathInConfig path_resolve
                              (srcPath (new_module pk f opts)) path None)) cb))
             r paths)) as Hfold.
  { intros cb paths. induction paths as [|p paths IH]; intros r Hr; [done|].
    simpl. apply IH. destruct r as [[[]|e] wr]; [|done].
    destruct Hr as (m' & Hh & Hinc & Himp & Hexc). unfold Q. simpl in *.
    unfold require, require_with. destruct (heap wr !! this) as [m|] eqn:Hl; [|exists m'; done].
    rewrite Hh, lookup_insert_eq in Hl. injection Hl as <-.
    destruct (console_assert _); [|exists m'; done].
    destruct (requires m') as [reqs|]; [|exists m'; done]. simpl.
    eexists. rewrite Hh, insert_insert_eq. split; [done|]. by simpl. }
  cbv zeta.
  match goal with |- context [foldl ?f2 (foldl ?f1 ?a ?l1) ?l2] =>
    assert (Q (foldl f2 (foldl f1 a l1) l2)) as (m' & Hh & Hlists);
    [apply Hfold, Hfold; exists (new_module pk f opts); by simpl|];
    destruct (foldl f2 (foldl f1 a l1) l2) as [[[]|e] wr]
  end; exists m'; done.
Qed.

Lemma include_reject (fuel : nat) (this module : ref) (w : World) :
  hasInclude fuel (heap w) module this = Some true →
  include fuel this module w = Some (Ok false, w).
Proof. intros Hprobe. unfold include. by rewrite Hprobe. Qed.

Lemma include_accept (fuel : nat) (this module : ref) (w : World)
    (mt : Module) :
  hasInclude fuel (heap w) module this = Some false →
  heap w !! this = Some mt →
  ∃ r w', include fuel this module w = Some (r, w') ∧
          heap w' = <[this := set_includes (includes mt ++ [module]) mt]> (heap w) ∧
          trace w' = trace w ∧
          (r = Ok true ∨ ∃ e, r = Throw e).
Proof.
  intros Hprobe Hmt. unfold include. rewrite Hprobe, Hmt.
  set (w1 := store this _ w).
  pose proof (dep_on_result this module "WebPack:include" w1) as Hheap.
  pose proof (ev_trace _ _ (steps_evolve _ _
    (dep_on_steps this module "WebPack:include" w1))) as Htrace.
  assert (trace (dep_on this module "WebPack:include" w1).2 = trace w1) as Htr.
  { unfold dep_on, file_dep. destruct (heap w1 !! module) as [m'|]; [|done].
    destruct (truthy (srcPath m')); [|done].
    destruct (heap w1 !! this) as [m|]; [|done]. by destruct (file m). }
  destruct (dep_on this module "WebPack:include" w1) as [[[]|e] w2];
    eexists _, _; (split; [done|]); (split; [done|]); (split; [done|]); eauto.
Qed.

Lemma include_returns_true (fuel : nat) (this module : ref) (w w' : World) :
  include fuel this module w = Some (Ok true, w') →
  hasInclude fuel (heap w) module this = Some false ∧
  ∃ mt, heap w !! this = Some mt ∧
        heap w' = <[this := set_includes (includes mt ++ [module]) mt]> (heap w).
Proof.
  intros Hrun. destruct (hasInclude fuel (heap w) module this) as [[]|] eqn:Hp.
  - by rewrite (include_reject _ _ _ _ Hp) in Hrun.
  - split; [done|]. destruct (heap w !! this) as [mt|] eqn:Hmt.
    + destruct (include_accept _ _ _ _ _ Hp Hmt) as (r & w2 & Hrun' & Hh & _).
      rewrite Hrun in Hrun'. injection Hrun' as <- <-. by exists mt.
    + unfold include in Hrun. by rewrite Hp, Hmt in Hrun.
  - unfold include in Hrun. by rewrite Hp in Hrun.
Qed.

Lemma include_acyclic (fuel : nat) (this module : ref) (w : World) :
  acyclic_includes (heap w) → size (dom (heap w)) < fuel →
  ∃ r w', include fuel this module w = Some (r, w') ∧
          acyclic_includes (heap w') ∧ dom (heap w') = dom (heap w).
Proof.
  intros Hacyc Hfuel.
  destruct (hasInclude_total (heap w) fuel module this Hacyc Hfuel)
    as [[] Hprobe].
  - exists (Ok false), w. by rewrite (include_reject _ _ _ _ Hprobe).
  - destruct (heap w !! this) as [mt|] eqn:Hmt.
    + destruct (include_accept _ _ _ _ _ Hprobe Hmt) as (r & w' & -> & Hh & _).
      exists r, w'. split; [done|]. rewrite Hh.
      pose proof (hasInclude_complete _ _ _ _ Hprobe) as Hunreach. split.
      * by apply acyclic_add_edge.
      * apply dom_insert_lookup_L. by eexists.
    + exists (Throw TypeError), w. unfold include. by rewrite Hprobe, Hmt.
Qed.

(** Every call keeps the [includes] relation acyclic, returns when the stack
    may be deeper than the store is large, and adds at most one module. *)
Lemma run_call_acyclic (path_resolve : list string → string) (fuel : nat)
    (c : Call) (w : World) :
  acyclic_includes (heap w) → size (dom (heap w)) < fuel →
  ∃ w', run_call path_resolve fuel c w = Some w' ∧ acyclic_includes (heap w') ∧
        size (dom (heap w')) ≤ S (size (dom (heap w))).
Proof.
  intros Hok Hfuel. destruct c as [pk f opts|this path cb|this|this module
                                   |this module|this module]; simpl.
  - eexists. split; [done|].
    destruct (constructor_heap path_resolve pk f opts w)
      as (m' & -> & Hinc & Himp & Hexc).
    assert (fresh (dom (heap w)) ∉ dom (heap w)) as Hfresh by apply is_fresh.
    split.
    + apply acyclic_store_new; [|done..].
      by apply includes_of_outside.
    + rewrite dom_insert_L, size_union, size_singleton; [done|].
      by apply disjoint_singleton_l.
  - eexists. split; [done|].
    destruct (require_acyclic this path cb w Hok) as [? ->]. split; [done|lia].
  - destruct (resolve_total fuel this w) as [[r w'] Hrun].
    { pose proof (size_unresolved_le (heap w)). lia. }
    rewrite Hrun. exists w'. split; [done|].
    destruct (steps_acyclic _ _ (resolve_steps _ _ _ _ _ Hrun) Hok) as [? ->].
    split; [done|lia].
  - destruct (include_acyclic fuel this module w Hok Hfuel)
      as (r & w' & -> & ? & Hdom).
    exists w'. split; [done|]. split; [done|]. rewrite Hdom. lia.
  - eexists. split; [done|].
    destruct (steps_acyclic _ _ (import_steps this module w) Hok) as [? ->].
    split; [done|lia].
  - eexists. split; [done|].
    destruct (steps_acyclic _ _ (exclude_steps this module w) Hok) as [? ->].
    split; [done|lia].
Qed.

Lemma run_calls_acyclic (path_resolve : list string → string) (fuel : nat)
    (calls : list Call) (w : World) :
  acyclic_includes (heap w) → size (dom (heap w)) + length calls ≤ fuel →
  ∃ w', run_calls path_resolve fuel calls w = Some w' ∧ acyclic_includes (heap w').
Proof.
  revert w. induction calls as [|c calls IH]; intros w Hok Hfuel.
  - by exists w.
  - simpl in Hfuel.
    destruct (run_call_acyclic path_resolve fuel c w Hok) as (w1 & Hc & Hok1 & Hsize);
      [lia|].
    destruct (IH w1 Hok1) as (w' & Hrest & Hok'); [lia|].
    exists w'. split; [|done]. unfold run_calls in *. simpl. by rewrite Hc.
Qed.

(** Without assuming anything about the [includes] graph: whatever a call
    sequence returns has no self edges if the world it started from had
    none. *)
Lemma run_call_no_self_edges (path_resolve : list string → string)
    (fuel : nat) (c : Call) (w w' : World) :
  no_self_edges (heap w) → run_call path_resolve fuel c w = Some w' →
  no_self_edges (heap w').
Proof.
  intros Hno. destruct c as [pk f opts|this path cb|this|this module
                             |this module|this module]; simpl.
  - intros [= <-].
    destruct (constructor_heap path_resolve pk f opts w)
      as (m' & -> & Hinc & Himp & Hexc).
    apply no_self_edges_store; [done|rewrite ?Hinc, ?Himp, ?Hexc..];
      apply not_elem_of_nil.
  - intros [= <-]. unfold require, require_with.
    destruct (heap w !! this) as [m|] eqn:Hm; [|done].
    destruct (console_assert _); [|done].
    destruct (requires m) as [reqs|]; [|done]. simpl.
    destruct (Hno _ _ Hm) as (? & ? & ?). by apply no_self_edges_store.
  - destruct (resolve fuel this w) as [[r w1]|] eqn:Hrun; [|done].
    intros [= <-]. by eapply steps_no_self_edges, Hno; eapply resolve_steps.
  - destruct (include fuel this module w) as [[r w1]|] eqn:Hrun; [|done].
    intros [= <-]. simpl. unfold include in Hrun.
    destruct (hasInclude fuel (heap w) module this) as [[]|] eqn:Hp; [| |done].
    + by injection Hrun as _ <-.
    + destruct (heap w !! this) as [mt|] eqn:Hmt; [|by injection Hrun as _ <-].
      destruct (include_accept _ _ _ _ _ Hp Hmt) as (r' & w2 & Hrun' & Hh & _).
      unfold include in Hrun'. rewrite Hp, Hmt, Hrun in Hrun'.
      injection Hrun' as _ <-. rewrite Hh.
      destruct (Hno _ _ Hmt) as (? & ? & ?).
      apply no_self_edges_store; simpl; [done| |done..].
      rewrite elem_of_app, list_elem_of_singleton. intros [?| ->]; [done|].
      by apply (hasInclude_complete _ _ _ _ Hp).
  - intros [= <-]. by apply (steps_no_self_edges w), Hno; apply import_steps.
  - intros [= <-]. by apply (steps_no_self_edges w), Hno; apply exclude_steps.
Qed.

Lemma run_calls_no_self_edges (path_resolve : list string → string)
    (fuel : nat) (calls : list Call) (w w' : World) :
  no_self_edges (heap w) → run_calls path_resolve fuel calls w = Some w' →
  no_self_edges (heap w').
Proof.
  revert w. induction calls as [|c calls IH]; intros w Hno; unfold run_calls;
    simpl.
  - by intros [= <-].
  - destruct (run_call path_resolve fuel c w) as [w1|] eqn:Hc; [|done].
    apply IH. by eapply run_call_no_self_edges.
Qed.

Lemma no_edges_acyclic (h : gmap ref Module) :
  (∀ r, includes_of h r = []) → acyclic_includes h.
Proof.
  intros Hempty x Hcyc.
  assert (∀ a b, tc (includes_edge h) a b → False) as Hnone; [|by eapply Hnone].
  intros a b Hab. destruct Hab as [a b Hab|a b c Hab _];
    unfold includes_edge in Hab; rewrite Hempty in Hab;
    by apply elem_of_nil in Hab.
Qed.

(** When the owning module still has its [file], an accepted [include]
    returns [true]. *)
Lemma include_succeeds (fuel : nat) (this module : ref) (w : World)
    (mt mm : Module) (f : File) :
  hasInclude fuel (heap w) module this = Some false →
  heap w !! this = Some mt → file mt = Some f → heap w !! module = Some mm →
  ∃ w', include fuel this module w = Some (Ok true, w') ∧
        heap w' = <[this := set_includes (includes mt ++ [module]) mt]> (heap w).
Proof.
  intros Hp Hmt Hfile Hmm.
  assert (module ≠ this) as Hne.
  { intros ->. by apply (hasInclude_complete _ _ _ _ Hp). }
  unfold include. rewrite Hp, Hmt. unfold dep_on, file_dep. simpl.
  rewrite lookup_insert_ne, Hmm by done.
  destruct (truthy (srcPath mm)); [|by eexists].
  rewrite lookup_insert_eq. simpl. rewrite Hfile. by eexists.
Qed.

(** C3: from a world whose [includes] lists are all empty, every sequence of
    calls returns a world in which no module reaches itself through
    [includes]; there, [include(module)] on a module that [module] reaches
    returns [false] and changes nothing, a call that returns [true] has
    appended [module] to the [includes] list, and a call that is not rejected
    appends it and, while the owner still has its [file], returns [true]. *)
Theorem include_keeps_acyclic (path_resolve : list string → string)
    (w : World) (calls : list Call) (k : nat) :
  (∀ r, includes_of (heap w) r = []) →
  ∃ w', run_calls path_resolve (size (dom (heap w)) + length calls + k) calls w
        = Some w' ∧
        acyclic_includes (heap w') ∧
        ∀ fuel this module, size (dom (heap w')) < fuel →
          (rtc (includes_edge (heap w')) module this →
           include fuel this module w' = Some (Ok false, w')) ∧
          (∀ w'', include fuel this module w' = Some (Ok true, w'') →
                  ¬ rtc (includes_edge (heap w')) module this ∧
                  includes_of (heap w'') this
                  = includes_of (heap w') this ++ [module]) ∧
          (¬ rtc (includes_edge (heap w')) module this →
           is_Some (heap w' !! this) →
           ∃ r w'', include fuel this module w' = Some (r, w'') ∧
                    (r = Ok true ∨ ∃ e, r = Throw e) ∧
                    includes_of (heap w'') this
                    = includes_of (heap w') this ++ [module]) ∧
          (¬ rtc (includes_edge (heap w')) module this →
           ∀ mt f, heap w' !! this = Some mt → file mt = Some f →
                   is_Some (heap w' !! module) →
                   ∃ w'', include fuel this module w' = Some (Ok true, w'')).
Proof.
  intros Hempty.
  destruct (run_calls_acyclic path_resolve
              (size (dom (heap w)) + length calls + k) calls w)
    as (w' & Hrun & Hacyc); [by apply no_edges_acyclic|lia|].
  exists w'. split; [done|]. split; [done|].
  intros fuel this module Hfuel. split; [|split; [|split]].
  - intros Hreach. apply include_reject. by apply hasInclude_reach.
  - intros w'' Hrun'.
    destruct (include_returns_true _ _ _ _ _ Hrun') as (Hp & mt & Hmt & ->).
    split; [by eapply hasInclude_complete|].
    rewrite includes_of_store. rewrite decide_True by done.
    unfold includes_of. by rewrite Hmt.
  - intros Hunreach [mt Hmt].
    destruct (include_accept fuel this module w' mt) as (r & w'' & -> & Hh & _ & Hr);
      [by apply hasInclude_unreach|done|].
    exists r, w''. split; [done|]. split; [done|].
    rewrite Hh, includes_of_store, decide_True by done.
    unfold includes_of. by rewrite Hmt.
  - intros Hunreach mt f Hmt Hfile [mm Hmm].
    destruct (include_succeeds fuel this module w' mt mm f) as (w'' & Hrun' & _);
      [by apply hasInclude_unreach|done..|].
    by exists w''.
Qed.

(** C8: [import(m)] and [exclude(m)] on [m] itself return without writing,
    [include(m)] on [m] returns [false] without writing, and no call sequence
    ever puts a module into one of its own three lists. *)
Theorem self_edges_rejected :
  (∀ m w, import m m w = (Ok tt, w)) ∧
  (∀ m w, exclude m m w = (Ok tt, w)) ∧
  (∀ fuel m w, include (S fuel) m m w = Some (Ok false, w)) ∧
  (∀ path_resolve fuel calls w w',
     no_self_edges (heap w) →
     run_calls path_resolve fuel calls w = Some w' →
     no_self_edges (heap w')) ∧
  (∀ path_resolve calls w k,
     no_self_edges (heap w) → acyclic_includes (heap w) →
     ∃ w', run_calls path_resolve (size (dom (heap w)) + length calls + k)
                     calls w = Some w' ∧
           no_self_edges (heap w')).
Proof.
  split; [|split; [|split; [|split]]].
  - intros m w. unfold import. by rewrite decide_True.
  - intros m w. unfold exclude. by rewrite decide_True.
  - intros fuel m w. apply include_reject. simpl. by rewrite decide_True.
  - intros path_resolve fuel calls w w'. apply run_calls_no_self_edges.
  - intros path_resolve calls w k Hno Hacyc.
    destruct (run_calls_acyclic path_resolve
                (size (dom (heap w)) + length calls + k) calls w)
      as (w' & Hrun & _); [done|lia|].
    exists w'. split; [done|]. by eapply run_calls_no_self_edges.
Qed.

(** * Examples on the fixture worlds *)

(** C1: on the world where [0] imports [1], [1] imports [2] and [0] excludes
    [1], all after resolution, [getModuleList] on [0] returns [[2, 1, 0]]
    with every stack depth that suffices: the excluded module [1] and its
    import [2] are both still in the list. *)
Theorem exclusion_not_applied (k : nat) :
  imports_of (heap Fixture.resolved_world) 0 = [1] ∧
  imports_of (heap Fixture.resolved_world) 1 = [2] ∧
  excludes_of (heap Fixture.resolved_world) 0 = [1] ∧
  getModuleList (3 + k) (heap Fixture.resolved_world) 0 = Some [2; 1; 0].
Proof.
  assert (imports_of (heap Fixture.resolved_world) 0 = [1]) as HA
    by (vm_compute; reflexivity).
  assert (imports_of (heap Fixture.resolved_world) 1 = [2]) as HB
    by (vm_compute; reflexivity).
  assert (imports_of (heap Fixture.resolved_world) 2 = []) as HC
    by (vm_compute; reflexivity).
  split; [done|]. split; [done|]. split; [vm_compute; reflexivity|].
  apply (getModuleList_from_imports _ 0 3 k ([2; 1; 0], [0; 1; 2])).
  by apply imports_line_order.
Qed.

Lemma imports_of_fmap (h : gmap ref Module) (r : ref) :
  imports_of h r = default [] ((imports <$> h) !! r).
Proof. unfold imports_of. rewrite lookup_fmap. by destruct (h !! r). Qed.

Lemma getModuleList_ignores_excludes_witness :
  excludes_of (heap Fixture.resolved_world) 0 = [1] ∧
  excludes_of (heap Fixture.line_world) 0 = [] ∧
  getModuleList 4 (heap Fixture.resolved_world) 0
  = getModuleList 4 (heap Fixture.line_world) 0.
Proof.
  split; [vm_compute; reflexivity|]. split; [vm_compute; reflexivity|].
  destruct (getModuleList_ignores_excludes (heap Fixture.line_world) 0 4 0)
    as (_ & _ & Hsame & _).
  apply Hsame. intros r. rewrite !imports_of_fmap.
  assert (imports <$> heap Fixture.resolved_world
          = imports <$> heap Fixture.line_world) as ->
    by (vm_compute; reflexivity).
  reflexivity.
Defined.

Lemma getModuleList_order_stability_witness :
  getModuleList (3 + 0) (heap Fixture.diamond_world) 0 = Some [2; 1; 0].
Proof.
  apply (getModuleList_order_stability (heap Fixture.diamond_world) 0 1 2 0);
    vm_compute; reflexivity.
Defined.

Lemma getModuleList_cycle_safe_witness :
  getModuleList (3 + 0) (heap Fixture.cycle_world) 0 = Some [1; 0].
Proof.
  apply (getModuleList_cycle_safe (heap Fixture.cycle_world) 0 1 0);
    [lia|vm_compute; reflexivity..].
Defined.

Lemma resolve_idempotent_witness :
  resolve 4 0 Fixture.declared_world = Some (Ok tt, Fixture.resolved_world) ∧
  resolve 1 0 Fixture.resolved_world = Some (Ok tt, Fixture.resolved_world).
Proof.
  assert (resolve 4 0 Fixture.declared_world
          = Some (Ok tt, Fixture.resolved_world)) as Hfirst
    by (vm_compute; reflexivity).
  split; [exact Hfirst|].
  exact (resolve_idempotent 4 0 0 _ _ Hfirst).
Defined.

Lemma fixture_ready :
  ready (heap Fixture.declared_world) ∧ ready (heap Fixture.null_target_world).
Proof. split; apply (bool_decide_unpack _); vm_compute; exact I. Qed.

Lemma resolve_sheds_state_witness :
  (∃ m', heap Fixture.resolved_world !! 0 = Some m' ∧
         requires m' = None ∧ file m' = None ∧ resolved m' = true ∧
         imports m' = [1] ∧ excludes m' = [1]) ∧
  (∃ w', resolve 4 0 Fixture.declared_world = Some (Ok tt, w')).
Proof.
  destruct (resolve_sheds_state 4 0 Fixture.declared_world
              (Fixture.the_module Fixture.declared_world 0))
    as [Hshed Hreturns]; [vm_compute; reflexivity..|].
  split.
  - destruct (Hshed Fixture.resolved_world) as (m' & Hm' & H1 & H2 & H3 & _);
      [vm_compute; reflexivity|].
    exists m'. repeat (split; [assumption|]).
    vm_compute in Hm'. injection Hm' as <-. split; reflexivity.
  - apply Hreturns; [apply fixture_ready|vm_compute; lia].
Defined.

Lemma null_target_skip_witness :
  (∃ before after,
     trace Fixture.null_target_resolved
     = trace Fixture.null_target_world ++ before ++ (0, OnExclude, None) :: after) ∧
  (∃ w', resolve 4 0 Fixture.null_target_world = Some (Ok tt, w')).
Proof.
  destruct (null_target_skip 4 0 Fixture.null_target_world
              (Fixture.the_module Fixture.null_target_world 0)
              [(Some "/b", OnImport); (None, OnExclude)] None OnExclude)
    as (_ & Hlogged & Hreturns); try (vm_compute; reflexivity).
  { apply list_elem_of_further, list_elem_of_here. }
  split.
  - apply Hlogged. vm_compute. reflexivity.
  - apply Hreturns; [apply fixture_ready|vm_compute; lia].
Defined.

Lemma require_after_resolved_fails_witness :
  require 0 (Some "/c") OnImport Fixture.resolved_world
  = (Throw AssertionError, Fixture.resolved_world) ∧
  ∃ e, require_with (λ _, Ok tt) 0 (Some "/c") OnImport Fixture.resolved_world
       = (Throw e, Fixture.resolved_world).
Proof.
  destruct (require_after_resolved_fails 0 (Some "/c") OnImport
              Fixture.resolved_world
              (Fixture.the_module Fixture.resolved_world 0))
    as [Hassert Hdeleted]; [vm_compute; reflexivity..|].
  split; [exact Hassert|]. apply Hdeleted. vm_compute. reflexivity.
Defined.

Lemma include_keeps_acyclic_witness :
  ∃ w', run_calls Fixture.path_resolve
          (size (dom (heap Fixture.empty_world))
           + length Fixture.include_script + 0)
          Fixture.include_script Fixture.empty_world = Some w' ∧
        acyclic_includes (heap w') ∧
        includes_of (heap w') 0 = [1] ∧ includes_of (heap w') 1 = [].
Proof.
  destruct (include_keeps_acyclic Fixture.path_resolve Fixture.empty_world
              Fixture.include_script 0) as (w' & Hrun & Hacyc & _).
  { intros r. reflexivity. }
  exists w'. split; [exact Hrun|]. split; [exact Hacyc|].
  vm_compute in Hrun. injection Hrun as <-. split; vm_compute; reflexivity.
Defined.

Lemma self_edges_rejected_witness :
  import 0 0 Fixture.resolved_world = (Ok tt, Fixture.resolved_world) ∧
  exclude 0 0 Fixture.resolved_world = (Ok tt, Fixture.resolved_world) ∧
  include 1 0 0 Fixture.resolved_world = Some (Ok false, Fixture.resolved_world) ∧
  no_self_edges (heap Fixture.resolved_world).
Proof.
  destruct self_edges_rejected as (Himp & Hexc & Hinc & Hseq & _).
  split; [apply Himp|]. split; [apply Hexc|]. split; [apply Hinc|].
  apply (Hseq Fixture.path_resolve 4
           (Fixture.declared ++ [CResolve 0]) Fixture.empty_world).
  - intros r m Hm. change (heap Fixture.empty_world) with (∅ : gmap nat Module) in Hm.
    by rewrite lookup_empty in Hm.
  - vm_compute. reflexivity.
Defined.

(** * Further properties of the order compiler *)

Section ImportClosure.
Variable h : gmap ref Module.

Lemma visit_spec_nil (st : list ref * list ref) : visit_spec h [] st st.
Proof.
  exists [], []. rewrite !app_nil_r. repeat split; try done.
  - constructor.
  - intros x Hx. by apply elem_of_nil in Hx.
  - intros x Hx. by apply elem_of_nil in Hx.
  - intros x y Hx. by apply elem_of_nil in Hx.
  - intros c Hc. by apply elem_of_nil in Hc.
Qed.

Lemma visit_spec_cons (c : ref) (cs : list ref)
    (st st1 st' : list ref * list ref) :
  visit_spec h [c] st st1 → visit_spec h cs st1 st' →
  visit_spec h (c :: cs) st st'.
Proof.
  intros (nR1 & nP1 & HR1 & HP1 & Hperm1 & Hnd1 & Hfresh1 & Hsound1 & Hclosed1 & Hmark1)
         (nR2 & nP2 & HR2 & HP2 & Hperm2 & Hnd2 & Hfresh2 & Hsound2 & Hclosed2 & Hmark2).
  exists (nR1 ++ nR2), (nP1 ++ nP2).
  split; [by rewrite HR2, HR1, app_assoc|].
  split; [by rewrite HP2, HP1, app_assoc|].
  split; [by rewrite Hperm1, Hperm2|].
  split.
  { apply NoDup_app. split; [done|]. split; [|done].
    intros x Hx1 Hx2. apply (Hfresh2 x Hx2). rewrite HP1.
    apply elem_of_app. by right. }
  split.
  { intros x Hx. apply elem_of_app in Hx as [Hx|Hx]; [by apply Hfresh1|].
    intros Hin. apply (Hfresh2 x Hx). rewrite HP1. apply elem_of_app. by left. }
  split.
  { intros x Hx. apply elem_of_app in Hx as [Hx|Hx].
    - destruct (Hsound1 x Hx) as (c' & Hc' & Hreach).
      apply list_elem_of_singleton in Hc' as ->. exists c.
      split; [apply list_elem_of_here|done].
    - destruct (Hsound2 x Hx) as (c' & Hc' & Hreach). exists c'.
      split; [by apply list_elem_of_further|done]. }
  split.
  { intros x y Hx Hy. apply elem_of_app in Hx as [Hx|Hx].
    - rewrite HP2. apply elem_of_app. left. by apply (Hclosed1 x).
    - by apply (Hclosed2 x). }
  intros c' Hc'. apply elem_of_cons in Hc' as [->|Hc'].
  - rewrite HP2. apply elem_of_app. left. apply Hmark1, list_elem_of_here.
  - by apply Hmark2.
Qed.

Lemma for_of_visit_spec (fuel : nat) :
  (∀ this st st', addImportsTo fuel h this st = Some st' →
                  visit_spec h [this] st st') →
  ∀ l st st', for_of (addImportsTo fuel h) l st = Some st' →
              visit_spec h l st st'.
Proof.
  intros IH l. induction l as [|c l IHl]; intros st st'; simpl.
  - intros [= <-]. apply visit_spec_nil.
  - destruct (addImportsTo fuel h c st) as [st1|] eqn:Hc; [|done].
    intros Hrest. apply (visit_spec_cons c l st st1 st'); [by apply IH|].
    by apply IHl.
Qed.

Lemma addImportsTo_visit_spec (fuel : nat) (this : ref)
    (st st' : list ref * list ref) :
  addImportsTo fuel h this st = Some st' → visit_spec h [this] st st'.
Proof.
  revert this st st'. induction fuel as [|fuel IH]; intros this st st'; [done|].
  simpl. case_bool_decide as Hin.
  - intros [= <-]. exists [], []. rewrite !app_nil_r.
    repeat split; try done.
    + constructor.
    + intros x Hx. by apply elem_of_nil in Hx.
    + intros x Hx. by apply elem_of_nil in Hx.
    + intros x y Hx. by apply elem_of_nil in Hx.
    + intros c Hc. by apply list_elem_of_singleton in Hc as ->.
  - destruct (for_of (addImportsTo fuel h) _ _) as [st1|] eqn:Hloop; [|done].
    intros [= <-].
    destruct (for_of_visit_spec fuel IH _ _ _ Hloop)
      as (nR & nP & HR & HP & Hperm & Hnd & Hfresh & Hsound & Hclosed & Hmark).
    simpl in *. exists (nR ++ [this]), (this :: nP). simpl.
    split; [by rewrite HR, app_assoc|].
    split; [by rewrite HP, <- app_assoc|].
    split; [by rewrite Hperm, Permutation_app_comm|].
    split.
    { constructor; [|done]. intros Hx. apply (Hfresh this Hx).
      apply elem_of_app. right. apply list_elem_of_here. }
    split.
    { intros x Hx. apply elem_of_cons in Hx as [->|Hx]; [done|].
      intros Hx'. apply (Hfresh x Hx). apply elem_of_app. by left. }
    split.
    { intros x Hx. exists this. split; [apply list_elem_of_here|].
      apply elem_of_cons in Hx as [->|Hx]; [done|].
      destruct (Hsound x Hx) as (c & Hc & Hreach). by apply rtc_l with c. }
    split.
    { intros x y Hx Hy. apply elem_of_cons in Hx as [->|Hx].
      - by apply Hmark.
      - by apply (Hclosed x). }
    intros c Hc. apply list_elem_of_singleton in Hc as ->. rewrite HP.
    apply elem_of_app. left. apply elem_of_app. right. apply list_elem_of_here.
Qed.

Lemma for_of_order_spec (fuel : nat) :
  (∀ this st st' newR, addImportsTo fuel h this st = Some st' →
                       st'.1 = st.1 ++ newR → order_spec h st newR) →
  ∀ l st st' newR, for_of (addImportsTo fuel h) l st = Some st' →
                   st'.1 = st.1 ++ newR → order_spec h st newR.
Proof.
  intros IH l. induction l as [|c l IHl]; intros st st' newR; simpl.
  - intros [= <-] HR. apply (f_equal length) in HR. rewrite length_app in HR.
    destruct newR; [|simpl in HR; lia]. intros i x y Hi. by destruct i.
  - destruct (addImportsTo fuel h c st) as [st1|] eqn:Hc; [|done].
    intros Hrest HR.
    destruct (addImportsTo_visit_spec _ _ _ _ Hc)
      as (nR1 & nP1 & HR1 & HP1 & Hperm1 & _).
    destruct (for_of_visit_spec fuel (addImportsTo_visit_spec fuel) _ _ _ Hrest)
      as (nR2 & nP2 & HR2 & _).
    assert (newR = nR1 ++ nR2) as ->.
    { rewrite HR2, HR1, <- app_assoc in HR. by apply app_inv_head in HR. }
    pose proof (IH c st st1 nR1 Hc HR1) as Ho1.
    pose proof (IHl st1 st' nR2 Hrest HR2) as Ho2.
    intros i x y Hi Hy. destruct (decide (i < length nR1)) as [Hlt|Hge].
    + rewrite lookup_app_l in Hi by done. rewrite take_app_le by lia.
      by apply (Ho1 i x y).
    + rewrite lookup_app_r in Hi by lia.
      rewrite take_app_ge by lia.
      destruct (Ho2 _ x y Hi Hy) as [Hbefore|[[HinP Hnot]|Hcyc]].
      * left. by rewrite HR1, <- app_assoc in Hbefore.
      * right. left. rewrite HP1 in HinP. rewrite HR1 in Hnot.
        apply elem_of_app in HinP as [HinP|HinP].
        -- split; [done|]. intros Hin. apply Hnot, elem_of_app. by left.
        -- exfalso. apply Hnot, elem_of_app. right. by rewrite Hperm1.
      * by right; right.
Qed.

Lemma addImportsTo_order_spec (fuel : nat) (this : ref)
    (st st' : list ref * list ref) (newR : list ref) :
  addImportsTo fuel h this st = Some st' → st'.1 = st.1 ++ newR →
  order_spec h st newR.
Proof.
  revert this st st' newR.
  induction fuel as [|fuel IH]; intros this st st' newR; [done|].
  simpl. case_bool_decide as Hin.
  - intros [= <-] HR. apply (f_equal length) in HR. rewrite length_app in HR.
    destruct newR; [|simpl in HR; lia]. intros i x y Hi. by destruct i.
  - destruct (for_of (addImportsTo fuel h) _ _) as [st1|] eqn:Hloop; [|done].
    intros [= <-] HR. simpl in HR.
    destruct (for_of_visit_spec fuel (addImportsTo_visit_spec fuel) _ _ _ Hloop)
      as (nR & nP & HR1 & HP1 & Hperm & _ & _ & Hsound & _ & Hmark).
    simpl in *.
    assert (newR = nR ++ [this]) as ->.
    { rewrite HR1, <- app_assoc in HR. by apply app_inv_head in HR. }
    pose proof (for_of_order_spec fuel IH _ _ _ nR Hloop HR1) as Ho.
    intros i x y Hi Hy. destruct (decide (i < length nR)) as [Hlt|Hge].
    + rewrite lookup_app_l in Hi by done. rewrite take_app_le by lia.
      destruct (Ho i x y Hi Hy) as [Hbefore|[[HinP Hnot]|Hcyc]]; simpl in *.
      * by left.
      * apply elem_of_app in HinP as [HinP|HinP]; [by right; left|].
        apply list_elem_of_singleton in HinP as ->. right. right.
        destruct (Hsound x) as (c & Hc & Hreach).
        { rewrite <- Hperm. by apply list_elem_of_lookup_2 in Hi. }
        by apply rtc_l with c.
      * by right; right.
    + rewrite lookup_app_r in Hi by lia.
      destruct (length nR - i) eqn:Hdiff; [|lia].
      assert (i = length nR) as -> by (apply lookup_lt_Some in Hi; simpl in Hi; lia).
      rewrite Nat.sub_diag in Hi. injection Hi as <-.
      rewrite take_app_length.
      pose proof (Hmark y Hy) as HyP. rewrite HP1 in HyP.
      apply elem_of_app in HyP as [HyP|HyP].
      * apply elem_of_app in HyP as [HyP|HyP].
        -- destruct (decide (y ∈ st.1)) as [HyR|HyR].
           ++ left. apply elem_of_app. by left.
           ++ by right; left.
        -- apply list_elem_of_singleton in HyP as ->. by right; right.
      * left. apply elem_of_app. right. by rewrite Hperm.
Qed.
End ImportClosure.

Lemma getModuleList_inv (h : gmap ref Module) (fuel : nat) (this : ref)
    (l : list ref) :
  getModuleList fuel h this = Some l →
  ∃ processed, addImportsTo fuel h this ([], []) = Some (l, processed).
Proof.
  rewrite getModuleList_unfiltered.
  destruct (addImportsTo fuel h this ([], [])) as [[l' processed]|]; [|done].
  intros [= <-]. by exists processed.
Qed.

Lemma import_closure_NoDup (h : gmap ref Module) (fuel : nat) (this : ref)
    (l processed : list ref) :
  addImportsTo fuel h this ([], []) = Some (l, processed) → NoDup l.
Proof.
  intros Hrun. destruct (addImportsTo_visit_spec h _ _ _ _ Hrun)
    as (nR & nP & HR & HP & Hperm & Hnd & _).
  simpl in *. subst. by rewrite Hperm.
Qed.

Lemma import_closure_elem_of (h : gmap ref Module) (fuel : nat) (this : ref)
    (l processed : list ref) (x : ref) :
  addImportsTo fuel h this ([], []) = Some (l, processed) →
  x ∈ l ↔ rtc (imports_edge h) this x.
Proof.
  intros Hrun. destruct (addImportsTo_visit_spec h _ _ _ _ Hrun)
    as (nR & nP & HR & HP & Hperm & _ & _ & Hsound & Hclosed & Hmark).
  simpl in *. subst. split.
  - intros Hx. rewrite Hperm in Hx. destruct (Hsound x Hx) as (c & Hc & Hreach).
    by apply list_elem_of_singleton in Hc as ->.
  - intros Hreach. rewrite Hperm. revert x Hreach. apply rtc_ind_r.
    + apply Hmark, list_elem_of_here.
    + intros y z _ Hyz IH. by apply (Hclosed y).
Qed.

Lemma import_closure_last (h : gmap ref Module) (fuel : nat) (this : ref)
    (l processed : list ref) :
  addImportsTo fuel h this ([], []) = Some (l, processed) →
  last l = Some this.
Proof.
  destruct fuel as [|fuel]; [done|].
  rewrite addImportsTo_unfold by apply not_elem_of_nil.
  destruct (for_of (addImportsTo fuel h) _ _) as [st1|]; [|done].
  intros [= <- _]. apply last_snoc.
Qed.

Lemma import_closure_order (h : gmap ref Module) (fuel : nat) (this : ref)
    (l processed : list ref) (i : nat) (x y : ref) :
  addImportsTo fuel h this ([], []) = Some (l, processed) →
  l !! i = Some x → y ∈ imports_of h x →
  ¬ rtc (imports_edge h) y x → y ∈ take i l.
Proof.
  intros Hrun Hi Hy Hcyc.
  destruct (addImportsTo_order_spec h _ _ _ _ l Hrun eq_refl i x y Hi Hy)
    as [Hbefore|[[HinP _]|Hreach]]; [done| |done].
  by apply elem_of_nil in HinP.
Qed.

(** X1: the list that [getModuleList] returns has no module twice, whatever
    the store: shared and cyclic imports are listed once. *)
Theorem getModuleList_no_duplicates (h : gmap ref Module) (fuel : nat)
    (this : ref) (l : list ref) :
  getModuleList fuel h this = Some l → NoDup l.
Proof.
  intros Hl. destruct (getModuleList_inv _ _ _ _ Hl) as (processed & Hrun).
  by eapply import_closure_NoDup.
Qed.

(** X2: the list that [getModuleList] returns holds exactly the modules that
    the root reaches over [imports] edges, the root included. *)
Theorem getModuleList_reachable (h : gmap ref Module) (fuel : nat)
    (this : ref) (l : list ref) :
  getModuleList fuel h this = Some l →
  ∀ x, x ∈ l ↔ rtc (imports_edge h) this x.
Proof.
  intros Hl x. destruct (getModuleList_inv _ _ _ _ Hl) as (processed & Hrun).
  by eapply import_closure_elem_of.
Qed.

(** X3: the root module is the last entry of the list that [getModuleList]
    returns. *)
Theorem getModuleList_root_last (h : gmap ref Module) (fuel : nat)
    (this : ref) (l : list ref) :
  getModuleList fuel h this = Some l → last l = Some this.
Proof.
  intros Hl. destruct (getModuleList_inv _ _ _ _ Hl) as (processed & Hrun).
  by eapply import_closure_last.
Qed.

(** X4: in the list that [getModuleList] returns, an import of a listed
    module comes before that module unless the import reaches the module
    back over [imports] edges (an import cycle). *)
Theorem getModuleList_imports_first (h : gmap ref Module) (fuel : nat)
    (this : ref) (l : list ref) (i : nat) (x y : ref) :
  getModuleList fuel h this = Some l →
  l !! i = Some x → y ∈ imports_of h x →
  ¬ rtc (imports_edge h) y x → y ∈ take i l.
Proof.
  intros Hl Hi Hy Hcyc.
  destruct (getModuleList_inv _ _ _ _ Hl) as (processed & Hrun).
  by eapply import_closure_order.
Qed.

(** ** The exclusion traversal away from the root *)

Lemma addImportsTo_marks (h : gmap ref Module) (fuel : nat) (this : ref)
    (st st' : list ref * list ref) :
  addImportsTo fuel h this st = Some st' → this ∈ st'.2.
Proof.
  intros Hrun. destruct (addImportsTo_visit_spec h _ _ _ _ Hrun)
    as (_ & _ & _ & _ & _ & _ & _ & _ & _ & Hmark).
  apply Hmark, list_elem_of_here.
Qed.

Lemma addExcludesTo_body (h : gmap ref Module) (fuel : nat) (module : ref)
    (s : list ref * list ref) :
  match addImportsTo fuel h module s with
  | Some s' => addExcludesTo fuel h module s'
  | None => None
  end = addImportsTo fuel h module s.
Proof.
  destruct (addImportsTo fuel h module s) as [s'|] eqn:Hrun; [|done].
  pose proof (addImportsTo_marks _ _ _ _ _ Hrun) as Hmark.
  destruct fuel as [|fuel]; [done|]. simpl. by rewrite bool_decide_eq_true_2.
Qed.

Lemma addExcludesTo_direct (h : gmap ref Module) (fuel : nat) (this : ref)
    (st : list ref * list ref) :
  this ∉ st.2 →
  addExcludesTo (S fuel) h this st =
  for_of (addImportsTo fuel h) (excludes_of h this) (st.1, st.2 ++ [this]).
Proof.
  intros Hin. simpl. rewrite bool_decide_eq_false_2 by done.
  apply for_of_ext. intros module s. apply addExcludesTo_body.
Qed.

(** X5: called on a module that is not yet marked, [addExcludesTo] does what
    [addImportsTo] does on each entry of the module's [excludes] list and no
    more: the nested [addExcludesTo] call always finds its module marked by
    the [addImportsTo] call before it, so no [excludes] edge of an excluded
    module is ever followed, and whatever is appended to the result is
    reached from a direct exclude over [imports] edges. *)
Theorem addExcludesTo_not_transitive (h : gmap ref Module) (fuel : nat)
    (this : ref) (st st' : list ref * list ref) :
  this ∉ st.2 →
  addExcludesTo (S fuel) h this st =
  for_of (addImportsTo fuel h) (excludes_of h this) (st.1, st.2 ++ [this]) ∧
  (addExcludesTo (S fuel) h this st = Some st' →
   ∃ new, st'.1 = st.1 ++ new ∧
          ∀ x, x ∈ new →
               ∃ c, c ∈ excludes_of h this ∧ rtc (imports_edge h) c x).
Proof.
  intros Hin. split; [by apply addExcludesTo_direct|].
  rewrite addExcludesTo_direct by done. intros Hrun.
  destruct (for_of_visit_spec h fuel (addImportsTo_visit_spec h fuel) _ _ _ Hrun)
    as (nR & nP & HR & _ & Hperm & _ & _ & Hsound & _).
  exists nR. split; [done|]. intros x Hx. apply Hsound. by rewrite <- Hperm.
Qed.

(** ** The includes probe *)

(** Without a visited set the probe never returns from a cycle that does not
    lead to the module it looks for. *)
Lemma hasInclude_cycle_diverges (h : gmap ref Module) (module : ref)
    (fuel : nat) :
  ∀ this, tc (includes_edge h) this this →
          ¬ rtc (includes_edge h) this module →
          hasInclude fuel h this module = None.
Proof.
  induction fuel as [|fuel IH]; intros this Hcyc Hunreach; [done|].
  simpl. destruct (decide (module = this)) as [->|Hne]; [by destruct Hunreach|].
  assert (∃ c, c ∈ includes_of h this ∧ rtc (includes_edge h) c this)
    as (c & Hc & Hback).
  { inversion Hcyc as [? ? Hedge|? c ? Hedge Hrest]; subst.
    - by exists this.
    - exists c. split; [done|]. by apply tc_rtc. }
  assert (hasInclude fuel h c module = None) as Hnone.
  { apply IH.
    - by apply tc_rtc_l with this; [|apply tc_once].
    - intros Hreach. apply Hunreach. by apply rtc_l with c. }
  assert (∀ x, x ∈ includes_of h this →
               hasInclude fuel h x module ≠ Some true) as Hnever.
  { intros x Hx Htrue. apply Hunreach, rtc_l with x; [done|].
    by eapply hasInclude_sound. }
  revert Hc Hnever. generalize (includes_of h this). intros l.
  induction l as [|x l IHl]; intros Hc Hnever; [by apply elem_of_nil in Hc|].
  simpl. destruct (hasInclude fuel h x module) as [[]|] eqn:Hx; [|..|done].
  - exfalso. apply (Hnever x); [apply list_elem_of_here|done].
  - apply IHl.
    + apply elem_of_cons in Hc as [->|Hc]; [congruence|done].
    + intros y Hy. apply Hnever. by apply list_elem_of_further.
Qed.

(** X6: on a store whose [includes] relation has no cycle, [hasInclude]
    returns, with any stack bound above the number of modules, and its answer
    is [true] exactly when [module] is reached from [this] over [includes]
    edges ([this] itself included). *)
Theorem hasInclude_decides_reachability (h : gmap ref Module) (fuel : nat)
    (this module : ref) :
  acyclic_includes h → size (dom h) < fuel →
  (rtc (includes_edge h) this module →
   hasInclude fuel h this module = Some true) ∧
  (¬ rtc (includes_edge h) this module →
   hasInclude fuel h this module = Some false).
Proof.
  intros Hacyc Hfuel. split; intros Hreach.
  - by apply hasInclude_reach.
  - by apply hasInclude_unreach.
Qed.

(** X7: [hasInclude] keeps no visited set: on a module that lies on a cycle
    of [includes] edges from which [module] is not reached, the probe exhausts
    every stack bound. *)
Theorem hasInclude_diverges_on_cycle (h : gmap ref Module)
    (this module : ref) :
  tc (includes_edge h) this this → ¬ rtc (includes_edge h) this module →
  ∀ fuel, hasInclude fuel h this module = None.
Proof. intros Hcyc Hunreach fuel. by apply hasInclude_cycle_diverges. Qed.

(** * Further properties of the resolver *)

(** What a callback does to its owner, whether or not it raises. *)
Lemma run_callback_owner (this : ref) (cb : Callback) (arg : option ref)
    (w : World) (ma : Module) :
  heap w !! this = Some ma →
  ∃ mb, heap (run_callback this cb arg w).2 !! this = Some mb ∧
        requires mb = requires ma ∧ file mb = file ma ∧
        resolved mb = resolved ma ∧
        imports mb = imports ma ++
          match cb, arg with
          | OnImport, Some module => if decide (module = this) then [] else [module]
          | _, _ => []
          end ∧
        excludes mb = excludes ma ++
          match cb, arg with
          | OnExclude, Some module => if decide (module = this) then [] else [module]
          | _, _ => []
          end.
Proof.
  intros Hma. unfold run_callback. destruct arg as [module|].
  2:{ exists ma. simpl. destruct cb; by rewrite !app_nil_r. }
  destruct cb; unfold import, exclude;
    destruct (decide (module = this)) as [Heq|Hne];
    try (exists ma; simpl; by rewrite !app_nil_r);
    simpl; rewrite Hma, dep_on_result; simpl; rewrite lookup_insert_eq;
    eexists; (split; [done|]); simpl; by rewrite !app_nil_r.
Qed.

Lemma run_callback_trace (this : ref) (cb : Callback) (arg : option ref)
    (w : World) :
  trace (run_callback this cb arg w).2 = trace w ++ [(this, cb, arg)].
Proof.
  assert (∀ module src w1, trace (dep_on this module src w1).2 = trace w1)
    as Hdep.
  { intros module src w1. unfold dep_on, file_dep.
    destruct (heap w1 !! module) as [m'|]; [|done].
    destruct (truthy (srcPath m')); [|done].
    destruct (heap w1 !! this) as [m|]; [|done]. by destruct (file m). }
  unfold run_callback. destruct arg as [module|]; [|done].
  destruct cb; unfold import, exclude;
    (destruct (decide (module = this)); [done|]); simpl;
    (destruct (heap w !! this) as [m|]; [|done]); by rewrite Hdep.
Qed.

(** One turn of the loop of [resolve], seen from the owner: its pending
    list, its file and its [resolved] flag stay; when the turn returns, its
    lists have grown by the edge of the declaration. *)
Lemma resolve_req_owner (fuel : nat) (this : ref) (m : Module)
    (req : option string * Callback) (wa wb : World) (r : Res unit)
    (ma : Module) :
  resolve_req fuel this m req wa = Some (r, wb) →
  heap wa !! this = Some ma → resolved ma = true →
  ∃ mb, heap wb !! this = Some mb ∧
        requires mb = requires ma ∧ file mb = file ma ∧ resolved mb = true ∧
        (r = Ok tt →
         imports mb = imports ma ++ option_list (edge_of OnImport this m req) ∧
         excludes mb = excludes ma ++ option_list (edge_of OnExclude this m req)).
Proof.
  intros Hreq Hma Hres. unfold resolve_req in Hreq.
  unfold edge_of, target_of. destruct req as [path cb]. simpl in *.
  destruct (truthy path) as [p|].
  - destruct (getModuleFromPath (packer m) p) as [module|].
    + destruct (resolve fuel module wa) as [[[[]|e] wc]|] eqn:Hrec; [| |done].
      * pose proof (resolve_frame _ _ _ _ _ this ma Hrec Hma Hres) as Hmc.
        destruct (run_callback_owner this cb (Some module) wc ma Hmc)
          as (mb & Hmb & ? & ? & ? & Himp & Hexc).
        destruct (run_callback this cb (Some module) wc) as [rc wd].
        injection Hreq as -> ->. exists mb. simpl in Hmb.
        repeat (split; [done || congruence|]). intros _.
        rewrite Himp, Hexc.
        destruct cb; simpl; by destruct (decide (module = this)).
      * injection Hreq as <- <-. exists ma.
        split; [by eapply resolve_frame|]. by repeat split.
    + injection Hreq as <- <-. exists ma. by repeat split.
  - destruct (run_callback_owner this cb None wa ma Hma)
      as (mb & Hmb & ? & ? & ? & Himp & Hexc).
    destruct (run_callback this cb None wa) as [rc wd].
    injection Hreq as -> ->. exists mb. simpl in Hmb.
    repeat (split; [done || congruence|]). intros _.
    rewrite Himp, Hexc. by destruct cb.
Qed.

Lemma resolve_loop_owner (fuel : nat) (this : ref) (m : Module)
    (reqs : list (option string * Callback)) :
  ∀ (wa wb : World) (r : Res unit) (ma : Module),
    for_each (resolve_req fuel this m) reqs wa = Some (r, wb) →
    heap wa !! this = Some ma → resolved ma = true →
    ∃ mb, heap wb !! this = Some mb ∧
          requires mb = requires ma ∧ file mb = file ma ∧ resolved mb = true ∧
          (r = Ok tt →
           imports mb = imports ma ++ omap (edge_of OnImport this m) reqs ∧
           excludes mb = excludes ma ++ omap (edge_of OnExclude this m) reqs).
Proof.
  induction reqs as [|req reqs IH]; intros wa wb r ma; simpl.
  - intros [= <- <-] Hma Hres. exists ma. rewrite !app_nil_r. by repeat split.
  - destruct (resolve_req fuel this m req wa) as [[r1 w1]|] eqn:Hreq; [|done].
    intros Hrest Hma Hres.
    destruct (resolve_req_owner _ _ _ _ _ _ _ _ Hreq Hma Hres)
      as (m1 & Hm1 & Hreq1 & Hfile1 & Hres1 & Hlists1).
    destruct r1 as [[]|e].
    + destruct (IH _ _ _ _ Hrest Hm1 Hres1)
        as (mb & Hmb & ? & ? & ? & Hlists).
      exists mb. repeat (split; [done || congruence|]). intros Hr.
      destruct (Hlists Hr) as [-> ->]. destruct (Hlists1 eq_refl) as [-> ->].
      unfold option_list.
      destruct (edge_of OnImport this m req), (edge_of OnExclude this m req);
        simpl; by rewrite <- !app_assoc.
    + injection Hrest as <- <-. exists m1.
      by repeat (split; [done || congruence|]).
Qed.

(** The entries that [resolve] adds to the invocation log belong to modules
    that were unresolved when it was called. *)
Lemma resolve_trace_owners (fuel : nat) :
  ∀ (this : ref) (w : World) (r : Res unit) (w' : World),
    resolve fuel this w = Some (r, w') →
    ∃ new, trace w' = trace w ++ new ∧
           ∀ e, e ∈ new → e.1.1 ∈ unresolved (heap w).
Proof.
  induction fuel as [|fuel IH]; intros this w r w'; [done|].
  rewrite resolve_unfold.
  assert (∃ new : list (ref * Callback * option ref),
            trace w = trace w ++ new ∧
            ∀ e, e ∈ new → e.1.1 ∈ unresolved (heap w)) as Hnone.
  { exists []. rewrite app_nil_r. split; [done|]. intros e He.
    by apply elem_of_nil in He. }
  destruct (heap w !! this) as [m|] eqn:Hm; [|by intros [= _ <-]].
  destruct (resolved m) eqn:Hres; [by intros [= _ <-]|]. simpl.
  destruct (requires m) as [reqs|]; [|by intros [= _ <-]].
  set (w1 := store this (set_resolved true m) w).
  set (P := λ wa : World,
         evolves w1 wa ∧
         ∃ new, trace wa = trace w ++ new ∧
                ∀ e, e ∈ new → e.1.1 ∈ unresolved (heap w)).
  assert (evolves w w1) as Hev1 by (by apply step_evolves, step_resolved).
  assert (this ∈ unresolved (heap w)) as Hthis
    by (apply elem_of_unresolved; by exists m).
  assert (∀ r2 w2, for_each (resolve_req fuel this m) reqs w1 = Some (r2, w2) →
                   P w2) as Hloop.
  { intros r2 w2. apply (for_each_invariant P); [|by split].
    intros req wa ra wb _ [Heva (new & Htr & Hown)] Hreq.
    split; [trans wa; [done|by eapply resolve_req_evolves]|].
    assert (∀ x : ref, x ∈ unresolved (heap wa) → x ∈ unresolved (heap w))
      as Hsub.
    { intros x He. apply (evolves_unresolved _ _ Hev1).
      by apply (evolves_unresolved _ _ Heva). }
    unfold resolve_req in Hreq. destruct (truthy req.1) as [p|].
    - destruct (getModuleFromPath (packer m) p) as [module|];
        [|injection Hreq as _ <-; by exists new].
      destruct (resolve fuel module wa) as [[[[]|e] wc]|] eqn:Hrec; [| |done].
      + destruct (IH _ _ _ _ Hrec) as (n1 & Htr1 & Hown1).
        pose proof (run_callback_trace this req.2 (Some module) wc) as Htr2.
        destruct (run_callback this req.2 (Some module) wc) as [rc wd].
        injection Hreq as _ <-. simpl in Htr2.
        exists (new ++ n1 ++ [(this, req.2, Some module)]).
        split; [by rewrite Htr2, Htr1, Htr, <- !app_assoc|].
        intros e He. rewrite !elem_of_app, list_elem_of_singleton in He.
        destruct He as [He|[He| ->]]; [by apply Hown|by apply Hsub, Hown1|done].
      + injection Hreq as _ <-. destruct (IH _ _ _ _ Hrec) as (n1 & Htr1 & Hown1).
        exists (new ++ n1). split; [by rewrite Htr1, Htr, <- !app_assoc|].
        intros e' He. rewrite elem_of_app in He.
        destruct He as [He|He]; [by apply Hown|by apply Hsub, Hown1].
    - pose proof (run_callback_trace this req.2 None wa) as Htr2.
      destruct (run_callback this req.2 None wa) as [rc wd].
      injection Hreq as _ <-. simpl in Htr2.
      exists (new ++ [(this, req.2, None)]).
      split; [by rewrite Htr2, Htr, <- !app_assoc|].
      intros e He. rewrite elem_of_app, list_elem_of_singleton in He.
      destruct He as [He| ->]; [by apply Hown|done]. }
  destruct (for_each _ reqs w1) as [[r2 w2]|] eqn:Hrun; [|done].
  destruct (Hloop _ _ eq_refl) as [_ Htrace].
  destruct r2 as [[]|e]; [|by intros [= _ <-]].
  destruct (heap w2 !! this); by intros [= _ <-].
Qed.

Lemma filter_none {A : Type} (P : A → Prop) `{!∀ x, Decision (P x)}
    (l : list A) :
  (∀ x, x ∈ l → ¬ P x) → filter P l = [].
Proof.
  induction l as [|x l IH]; intros Hall; [done|].
  rewrite filter_cons_False by (apply Hall, list_elem_of_here).
  apply IH. intros y Hy. by apply Hall, list_elem_of_further.
Qed.

(** The shape of a call of [resolve] that returned on an unresolved module. *)
Lemma resolve_ok_inv (fuel : nat) (this : ref) (w w' : World) (m : Module) :
  heap w !! this = Some m → resolved m = false →
  resolve fuel this w = Some (Ok tt, w') →
  ∃ fuel' reqs w2 m2,
    fuel = S fuel' ∧ requires m = Some reqs ∧
    for_each (resolve_req fuel' this m) reqs
             (store this (set_resolved true m) w) = Some (Ok tt, w2) ∧
    heap w2 !! this = Some m2 ∧
    w' = store this (set_file None (set_requires None m2)) w2.
Proof.
  intros Hm Hres. destruct fuel as [|fuel]; [done|].
  rewrite resolve_unfold, Hm, Hres. simpl.
  destruct (requires m) as [reqs|]; [|done].
  destruct (for_each _ reqs _) as [[[[]|e] w2]|] eqn:Hloop; [|done..].
  destruct (heap w2 !! this) as [m2|] eqn:Hm2; [|done].
  intros [= <-]. by exists fuel, reqs, w2, m2.
Qed.

Lemma resolve_loop_trace (fuel : nat) (this : ref) (m : Module)
    (reqs : list (option string * Callback)) :
  ∀ (wa wb : World) (ma : Module),
    for_each (resolve_req fuel this m) reqs wa = Some (Ok tt, wb) →
    heap wa !! this = Some ma → resolved ma = true →
    ∃ new, trace wb = trace wa ++ new ∧
           filter (λ e, e.1.1 = this) new = invocations this m reqs.
Proof.
  induction reqs as [|req reqs IH]; intros wa wb ma; simpl.
  - intros [= <-] _ _. exists []. by rewrite app_nil_r.
  - destruct (resolve_req fuel this m req wa) as [[[[]|e] w1]|] eqn:Hreq;
      [|done..].
    intros Hrest Hma Hres.
    destruct (resolve_req_owner _ _ _ _ _ _ _ _ Hreq Hma Hres)
      as (m1 & Hm1 & _ & _ & Hres1 & _).
    destruct (IH _ _ _ Hrest Hm1 Hres1) as (n2 & Htr2 & Hf2).
    assert (∃ n1, trace w1 = trace wa ++ n1 ∧
                  filter (λ e, e.1.1 = this) n1
                  = [(this, req.2, target_of m req)]) as (n1 & Htr1 & Hf1).
    { unfold resolve_req in Hreq. unfold target_of.
      destruct (truthy req.1) as [p|].
      - destruct (getModuleFromPath (packer m) p) as [module|]; [|done].
        destruct (resolve fuel module wa) as [[[[]|e] wc]|] eqn:Hrec; [|done..].
        destruct (resolve_trace_owners _ _ _ _ _ Hrec) as (n & Htr & Hown).
        pose proof (run_callback_trace this req.2 (Some module) wc) as Htrc.
        destruct (run_callback this req.2 (Some module) wc) as [rc wd].
        injection Hreq as _ <-. simpl in Htrc.
        exists (n ++ [(this, req.2, Some module)]).
        split; [by rewrite Htrc, Htr, <- app_assoc|].
        rewrite filter_app, (filter_none _ n), filter_cons_True; [done..|].
        intros e' He' Heq. specialize (Hown e' He'). rewrite Heq in Hown.
        apply elem_of_unresolved in Hown as (m' & Hm' & Hres').
        congruence.
      - pose proof (run_callback_trace this req.2 None wa) as Htrc.
        destruct (run_callback this req.2 None wa) as [rc wd].
        injection Hreq as _ <-. simpl in Htrc.
        exists [(this, req.2, None)]. split; [done|].
        by rewrite filter_cons_True. }
    exists (n1 ++ n2). split; [by rewrite Htr2, Htr1, <- app_assoc|].
    by rewrite filter_app, Hf1, Hf2.
Qed.

(** X8: [resolve] writes to no module whose [resolved] flag is already true
    when it is called, whether it returns or raises: a resolved module keeps
    all its fields through the resolution of any other module. *)
Theorem resolve_leaves_resolved_modules (fuel : nat) (this : ref)
    (w w' : World) (r : Res unit) (x : ref) (mx : Module) :
  resolve fuel this w = Some (r, w') →
  heap w !! x = Some mx → resolved mx = true →
  heap w' !! x = Some mx.
Proof. apply resolve_frame. Qed.

(** X9: [resolve] returns or raises on every world, cyclic declarations
    included, with a call stack no deeper than one more than the number of
    unresolved modules. *)
Theorem resolve_terminates (fuel : nat) (this : ref) (w : World) :
  size (unresolved (heap w)) < fuel → is_Some (resolve fuel this w).
Proof. apply resolve_total. Qed.

(** X10: when [resolve] returns on an unresolved module, every module that
    one of its pending declarations resolves to is resolved. *)
Theorem resolve_resolves_targets (fuel : nat) (this : ref) (w w' : World)
    (m : Module) (reqs : list (option string * Callback))
    (req : option string * Callback) (module : ref) :
  heap w !! this = Some m → resolved m = false → requires m = Some reqs →
  req ∈ reqs → target_of m req = Some module →
  resolve fuel this w = Some (Ok tt, w') →
  ∃ m', heap w' !! module = Some m' ∧ resolved m' = true.
Proof.
  intros Hm Hres Hreqs Hin Htarget Hrun.
  destruct (resolve_ok_inv _ _ _ _ _ Hm Hres Hrun)
    as (fuel' & reqs' & w2 & m2 & -> & Hreqs' & Hloop & Hm2 & ->).
  rewrite Hreqs in Hreqs'. injection Hreqs' as <-.
  apply list_elem_of_split in Hin as (l1 & l2 & ->).
  apply for_each_ok_split in Hloop as (wa & wb & _ & Hreq & Hrest).
  assert (∃ mb, heap wb !! module = Some mb ∧ resolved mb = true)
    as (mb & Hmb & Hresb).
  { unfold resolve_req in Hreq. unfold target_of in Htarget.
    destruct (truthy req.1) as [p|]; [|done]. rewrite Htarget in Hreq.
    destruct (resolve fuel' module wa) as [[[[]|e] wc]|] eqn:Hrec; [|done..].
    destruct (resolve_ok_resolved _ _ _ _ Hrec) as (mc & Hmc & Hresc).
    pose proof (run_callback_steps this req.2 (Some module) wc) as Hsteps.
    destruct (run_callback this req.2 (Some module) wc) as [rc wd].
    injection Hreq as _ <-. apply steps_evolve in Hsteps.
    destruct (evolves_lookup _ _ _ _ Hsteps Hmc) as (md & Hmd & Hg).
    exists md. split; [done|]. by apply Hg. }
  apply resolve_loop_evolves in Hrest.
  destruct (evolves_lookup _ _ _ _ Hrest Hmb) as (mc & Hmc & Hg).
  destruct (decide (this = module)) as [<-|Hne].
  - eexists. simpl. rewrite lookup_insert_eq. split; [done|]. simpl.
    rewrite Hm2 in Hmc. injection Hmc as <-. by apply Hg.
  - exists mc. simpl. rewrite lookup_insert_ne by done. split; [done|].
    by apply Hg.
Qed.

(** X11: when [resolve] returns on an unresolved module, its [imports] list
    is the old list followed by the targets of its import declarations, in
    declaration order, without the declarations that have no target or the
    module itself as target; the same holds for [excludes] and the exclude
    declarations. *)
Theorem resolve_appends_declared_edges (fuel : nat) (this : ref)
    (w w' : World) (m : Module) (reqs : list (option string * Callback)) :
  heap w !! this = Some m → resolved m = false → requires m = Some reqs →
  resolve fuel this w = Some (Ok tt, w') →
  ∃ m', heap w' !! this = Some m' ∧
        imports m' = imports m ++ omap (edge_of OnImport this m) reqs ∧
        excludes m' = excludes m ++ omap (edge_of OnExclude this m) reqs.
Proof.
  intros Hm Hres Hreqs Hrun.
  destruct (resolve_ok_inv _ _ _ _ _ Hm Hres Hrun)
    as (fuel' & reqs' & w2 & m2 & -> & Hreqs' & Hloop & Hm2 & ->).
  rewrite Hreqs in Hreqs'. injection Hreqs' as <-.
  destruct (resolve_loop_owner _ _ _ _ _ _ _ (set_resolved true m) Hloop)
    as (mb & Hmb & _ & _ & _ & Hlists); [by apply lookup_insert_eq|done|].
  rewrite Hm2 in Hmb. injection Hmb as <-.
  destruct (Hlists eq_refl) as [Himp Hexc].
  eexists. simpl. rewrite lookup_insert_eq. split; [done|]. by simpl.
Qed.

(** X12: when [resolve] raises on an unresolved module, the module is left
    marked resolved with its pending list and its file as they were, and a
    later [resolve] on it returns at once without processing anything: a
    failed resolution is not retried. *)
Theorem resolve_failure_is_final (fuel k : nat) (this : ref) (w w' : World)
    (m : Module) (e : Exn) :
  heap w !! this = Some m → resolved m = false →
  resolve fuel this w = Some (Throw e, w') →
  (∃ m', heap w' !! this = Some m' ∧ resolved m' = true ∧
         requires m' = requires m ∧ file m' = file m) ∧
  resolve (S k) this w' = Some (Ok tt, w').
Proof.
  intros Hm Hres Hrun.
  assert (∃ m', heap w' !! this = Some m' ∧ resolved m' = true ∧
                requires m' = requires m ∧ file m' = file m)
    as (m' & Hm' & Hres' & Hkeep).
  { destruct fuel as [|fuel]; [done|].
    rewrite resolve_unfold, Hm, Hres in Hrun. simpl in Hrun.
    destruct (requires m) as [reqs|] eqn:Hreqs.
    - destruct (for_each _ reqs _) as [[r2 w2]|] eqn:Hloop; [|done].
      destruct (resolve_loop_owner _ _ _ _ _ _ _ (set_resolved true m) Hloop)
        as (mb & Hmb & Hreqb & Hfileb & Hresb & _);
        [by apply lookup_insert_eq|done|].
      destruct r2 as [[]|e2]; [by rewrite Hmb in Hrun|].
      injection Hrun as _ <-. exists mb. simpl in *.
      split; [done|]. split; [done|]. split; congruence.
    - injection Hrun as _ <-. eexists. simpl. rewrite lookup_insert_eq.
      split; [done|]. by simpl. }
  split; [by exists m'|]. by rewrite resolve_unfold, Hm', Hres'.
Qed.

(** X13: when [resolve] returns on an unresolved module, the callbacks of its
    pending declarations have been invoked once each, in declaration order,
    each with the module its declaration resolves to or with [null]: these
    are exactly the entries of the module in the part of the invocation log
    that the call added. *)
Theorem resolve_invokes_each_callback_once (fuel : nat) (this : ref)
    (w w' : World) (m : Module) (reqs : list (option string * Callback)) :
  heap w !! this = Some m → resolved m = false → requires m = Some reqs →
  resolve fuel this w = Some (Ok tt, w') →
  ∃ new, trace w' = trace w ++ new ∧
         filter (λ e, e.1.1 = this) new = invocations this m reqs.
Proof.
  intros Hm Hres Hreqs Hrun.
  destruct (resolve_ok_inv _ _ _ _ _ Hm Hres Hrun)
    as (fuel' & reqs' & w2 & m2 & -> & Hreqs' & Hloop & Hm2 & ->).
  rewrite Hreqs in Hreqs'. injection Hreqs' as <-.
  destruct (resolve_loop_trace _ _ _ _ _ _ (set_resolved true m) Hloop)
    as (new & Htr & Hf); [by apply lookup_insert_eq|done|].
  by exists new.
Qed.

(** * Construction and the registry *)

Lemma store_store (this : ref) (m m' : Module) (w : World) :
  store this m' (store this m w) = store this m' w.
Proof. unfold store. simpl. by rewrite insert_insert_eq. Qed.

Lemma declare_fold (path_resolve : list string → string) (this : ref)
    (cb : Callback) (src : option string) (w : World) (paths : list string) :
  ∀ (m0 : Module) (acc : list (option string * Callback)),
    requires m0 = Some acc → resolved m0 = false →
    foldl (λ r path,
             and_then r
               (require this
                  (Some (resolvePathInConfig path_resolve src path None)) cb))
          (Ok tt, store this m0 w) paths
    = (Ok tt,
       store this
         (set_requires
            (Some (acc ++ map (λ path,
                                 (Some (resolvePathInConfig path_resolve src
                                                            path None), cb))
                              paths)) m0) w).
Proof.
  induction paths as [|p paths IH]; intros m0 acc Hreq Hres; simpl.
  - rewrite app_nil_r. destruct m0. simpl in *. by subst.
  - unfold require at 2, require_with. simpl.
    rewrite lookup_insert_eq, Hres, Hreq. simpl. rewrite store_store.
    rewrite (IH _ (acc ++ [(Some (resolvePathInConfig path_resolve src p None),
                            cb)])); [|done..].
    by rewrite <- app_assoc.
Qed.

Lemma constructor_exact (path_resolve : list string → string)
    (pk : gmap string ref) (f : File) (opts : option ModuleOptions)
    (w : World) :
  constructor path_resolve pk f opts w =
  (Ok (fresh (dom (heap w))),
   store (fresh (dom (heap w)))
         (set_requires
            (Some (declarations path_resolve (f_srcPath f)
                                (default emptyObject opts)))
            (new_module pk f opts)) w).
Proof.
  unfold constructor, declarations. cbv zeta.
  rewrite (declare_fold _ _ OnImport _ _ _ (new_module pk f opts) []) by done.
  erewrite (declare_fold _ _ OnExclude); [|reflexivity..].
  done.
Qed.

(** X14: the constructor never raises; the new module gets a reference that
    no stored module has, is unresolved with empty relation lists, and holds
    one pending declaration per configured import followed by one per
    configured exclude, in the configured order; no other module is
    touched. *)
Theorem constructor_registers_declarations
    (path_resolve : list string → string) (pk : gmap string ref) (f : File)
    (opts : option ModuleOptions) (w : World) :
  ∃ this m,
    constructor path_resolve pk f opts w = (Ok this, store this m w) ∧
    heap w !! this = None ∧
    requires m = Some (declarations path_resolve (f_srcPath f)
                                    (default emptyObject opts)) ∧
    resolved m = false ∧ file m = Some f ∧
    includes m = [] ∧ imports m = [] ∧ excludes m = [].
Proof.
  eexists _, _. split; [apply constructor_exact|]. split; [|done].
  apply not_elem_of_dom, is_fresh.
Qed.

Lemma omap_cons_eq {A B : Type} (f : A → option B) (x : A) (l : list A) :
  omap f (x :: l) =
  match f x with Some y => y :: omap f l | None => omap f l end.
Proof. reflexivity. Qed.

Lemma omap_map_edge (cb cb' : Callback) (this : ref) (m : Module)
    (g : string → string) (paths : list string) :
  omap (edge_of cb this m) (map (λ path, (Some (g path), cb')) paths) =
  if callback_is cb cb' then
    omap (λ path,
            match truthy (Some (g path)) with
            | Some p =>
              match getModuleFromPath (packer m) p with
              | Some module => if decide (module = this) then None else Some module
              | None => None
              end
            | None => None
            end) paths
  else [].
Proof.
  induction paths as [|p paths IH]; [by destruct (callback_is cb cb')|].
  cbn [map]. rewrite omap_cons_eq, IH. unfold edge_of, target_of.
  cbn [fst snd]. destruct (callback_is cb cb'); [|done].
  rewrite omap_cons_eq. by destruct (truthy (Some (g p))).
Qed.

(** X15: a module built by the constructor and then resolved has as
    [imports] the modules its configured import paths stand for, in the
    configured order, and as [excludes] those of its configured exclude
    paths; paths that resolve to the module itself are left out. *)
Theorem constructor_then_resolve (path_resolve : list string → string)
    (pk : gmap string ref) (f : File) (opts : option ModuleOptions)
    (w w1 w' : World) (this : ref) (fuel : nat) :
  constructor path_resolve pk f opts w = (Ok this, w1) →
  resolve fuel this w1 = Some (Ok tt, w') →
  ∃ m', heap w' !! this = Some m' ∧
        imports m' = configured_targets path_resolve pk (f_srcPath f) this
                       (default [] (opt_imports (default emptyObject opts))) ∧
        excludes m' = configured_targets path_resolve pk (f_srcPath f) this
                        (default [] (opt_excludes (default emptyObject opts))).
Proof.
  rewrite constructor_exact. intros [= <- <-] Hrun.
  set (this := fresh (dom (heap w))) in *.
  set (m := set_requires _ (new_module pk f opts)) in *.
  destruct (resolve_ok_inv _ _ _ _ m (lookup_insert_eq _ _ _) eq_refl Hrun)
    as (fuel' & reqs & w2 & m2 & -> & Hreqs & Hloop & Hm2 & ->).
  injection Hreqs as <-.
  destruct (resolve_loop_owner _ _ _ _ _ _ _ (set_resolved true m) Hloop)
    as (mb & Hmb & _ & _ & _ & Hlists); [by apply lookup_insert_eq|done|].
  rewrite Hm2 in Hmb. injection Hmb as <-.
  destruct (Hlists eq_refl) as [Himp Hexc].
  eexists. simpl. rewrite lookup_insert_eq. split; [done|]. simpl.
  rewrite Himp, Hexc. unfold declarations, configured_targets.
  rewrite !omap_app, !omap_map_edge. simpl. by rewrite app_nil_r.
Qed.

Lemma import_heap (this module : ref) (w : World) (m : Module) :
  module ≠ this → heap w !! this = Some m →
  heap (import this module w).2
  = <[this := set_imports (imports m ++ [module]) m]> (heap w).
Proof.
  intros Hne Hm. unfold import. rewrite decide_False by done.
  by rewrite Hm, dep_on_result.
Qed.

(** X16: [import] does not look for an existing edge: importing the same
    module twice stores it twice. *)
Theorem import_keeps_duplicates (this module : ref) (w : World) (m : Module) :
  module ≠ this → heap w !! this = Some m →
  imports_of (heap (import this module (import this module w).2).2) this
  = imports m ++ [module; module].
Proof.
  intros Hne Hm.
  rewrite (import_heap this module _ (set_imports (imports m ++ [module]) m));
    [|done|by rewrite (import_heap _ _ _ m), lookup_insert_eq].
  unfold imports_of. rewrite lookup_insert_eq. simpl. by rewrite <- app_assoc.
Qed.

Lemma dep_on_deleted_file (this module : ref) (source : string) (w : World)
    (m mm : Module) (p : string) :
  heap w !! this = Some m → file m = None →
  heap w !! module = Some mm → truthy (srcPath mm) = Some p →
  dep_on this module source w = (Throw TypeError, w).
Proof.
  intros Hm Hfile Hmm Hp. unfold dep_on, file_dep.
  by rewrite Hmm, Hp, Hm, Hfile.
Qed.

(** X17: on a module whose [file] has been deleted (as [resolve] leaves it),
    inserting an edge to a module that has a source path raises a
    [TypeError] after the edge has been appended: [import], [exclude] and an
    accepted [include] leave the new entry in the list although they do not
    return. *)
Theorem edge_insertion_after_shedding (this module : ref) (w : World)
    (m mm : Module) (p : string) :
  heap w !! this = Some m → file m = None → module ≠ this →
  heap w !! module = Some mm → truthy (srcPath mm) = Some p →
  import this module w
  = (Throw TypeError, store this (set_imports (imports m ++ [module]) m) w) ∧
  exclude this module w
  = (Throw TypeError, store this (set_excludes (excludes m ++ [module]) m) w) ∧
  ∀ fuel, hasInclude fuel (heap w) module this = Some false →
          include fuel this module w
          = Some (Throw TypeError,
                  store this (set_includes (includes m ++ [module]) m) w).
Proof.
  intros Hm Hfile Hne Hmm Hp.
  assert (∀ m1 src, file m1 = None →
            dep_on this module src (store this m1 w)
            = (Throw TypeError, store this m1 w)) as Hdep.
  { intros m1 src Hf. apply (dep_on_deleted_file _ _ _ _ m1 mm p); simpl;
      [by rewrite lookup_insert_eq|done|by rewrite lookup_insert_ne|done]. }
  split; [|split].
  - unfold import. rewrite decide_False by done. rewrite Hm. by apply Hdep.
  - unfold exclude. rewrite decide_False by done. rewrite Hm. by apply Hdep.
  - intros fuel Hprobe. unfold include. rewrite Hprobe, Hm. simpl.
    by rewrite Hdep.
Qed.



(** X19: the identities that [ensure] hands to the packer are all that
    [resolve] needs: if every unresolved module still has its file and the
    packer maps each identity that [ensure] requests for it to a stored
    module, then [resolve] returns without raising. *)
Theorem ensure_suffices_for_resolve (fuel : nat) (this : ref) (w : World) :
  (∀ r m, heap w !! r = Some m → resolved m = false →
     is_Some (file m) ∧
     ∃ paths, ensure r w = Ok paths ∧
              ∀ p, p ∈ paths →
                   ∃ module, getModuleFromPath (packer m) p = Some module ∧
                             is_Some (heap w !! module)) →
  is_Some (heap w !! this) → size (unresolved (heap w)) < fuel →
  ∃ w', resolve fuel this w = Some (Ok tt, w').
Proof.
  intros Hensured Hthis Hfuel.
  destruct (resolve_returns_ok fuel this w) as (w' & Hrun & _);
    [|done..|by exists w'].
  intros r m Hm. unfold module_ready.
  destruct (resolved m) eqn:Hres; [done|]. simpl.
  destruct (Hensured r m Hm Hres) as (Hfile & paths & Hens & Hpaths).
  rewrite bool_decide_eq_true_2 by done. simpl.
  unfold ensure, ensure_with in Hens. rewrite Hm, Hres in Hens. simpl in Hens.
  destruct (requires m) as [reqs|]; [|done]. injection Hens as <-.
  apply forallb_forall. intros req Hreq. unfold declaration_ready.
  destruct (truthy req.1) as [p|] eqn:Hp; [|done].
  destruct (Hpaths p) as (module & -> & Hstored).
  - apply list_elem_of_omap. exists req. split; [by apply list_elem_of_In|done].
  - apply bool_decide_eq_true_2. by apply elem_of_dom.
Qed.

(** * Examples for the further properties *)

Lemma getModuleList_no_duplicates_witness :
  getModuleList 4 (heap Fixture.diamond_world) 0 = Some [2; 1; 0] ∧
  NoDup [2; 1; 0].
Proof.
  assert (getModuleList 4 (heap Fixture.diamond_world) 0 = Some [2; 1; 0])
    as Hl by (vm_compute; reflexivity).
  split; [exact Hl|]. exact (getModuleList_no_duplicates _ _ _ _ Hl).
Defined.

Lemma getModuleList_reachable_witness :
  getModuleList 4 (heap Fixture.diamond_world) 0 = Some [2; 1; 0] ∧
  ∀ x, x ∈ [2; 1; 0] ↔ rtc (imports_edge (heap Fixture.diamond_world)) 0 x.
Proof.
  assert (getModuleList 4 (heap Fixture.diamond_world) 0 = Some [2; 1; 0])
    as Hl by (vm_compute; reflexivity).
  split; [exact Hl|]. exact (getModuleList_reachable _ _ _ _ Hl).
Defined.

Lemma getModuleList_root_last_witness :
  getModuleList 4 (heap Fixture.cycle_world) 0 = Some [1; 0] ∧
  last [1; 0] = Some 0.
Proof.
  assert (getModuleList 4 (heap Fixture.cycle_world) 0 = Some [1; 0])
    as Hl by (vm_compute; reflexivity).
  split; [exact Hl|]. exact (getModuleList_root_last _ _ _ _ Hl).
Defined.

Lemma getModuleList_imports_first_witness :
  getModuleList 4 (heap Fixture.diamond_world) 0 = Some [2; 1; 0] ∧
  1 ∈ take 2 [2; 1; 0].
Proof.
  assert (getModuleList 4 (heap Fixture.diamond_world) 0 = Some [2; 1; 0])
    as Hl by (vm_compute; reflexivity).
  split; [exact Hl|].
  apply (getModuleList_imports_first (heap Fixture.diamond_world) 4 0
           [2; 1; 0] 2 0 1).
  - exact Hl.
  - reflexivity.
  - assert (imports_of (heap Fixture.diamond_world) 0 = [1; 2]) as ->
      by (vm_compute; reflexivity).
    apply list_elem_of_here.
  - intros Hreach.
    apply (import_closure_elem_of (heap Fixture.diamond_world) 3 1
             [2; 1] [1; 2] 0) in Hreach; [|vm_compute; reflexivity].
    rewrite !elem_of_cons, elem_of_nil in Hreach.
    destruct Hreach as [?|[?|[]]]; discriminate.
Defined.

Lemma addExcludesTo_not_transitive_witness :
  addExcludesTo 4 (heap Fixture.resolved_world) 0 ([], [])
  = for_of (addImportsTo 3 (heap Fixture.resolved_world))
           (excludes_of (heap Fixture.resolved_world) 0) ([], [] ++ [0]) ∧
  addExcludesTo 4 (heap Fixture.resolved_world) 0 ([], [])
  = Some ([2; 1], [0; 1; 2]).
Proof.
  destruct (addExcludesTo_not_transitive (heap Fixture.resolved_world) 3 0
              ([], []) ([2; 1], [0; 1; 2])) as [Heq _].
  { apply not_elem_of_nil. }
  split; [exact Heq|]. vm_compute. reflexivity.
Defined.

Lemma include_world_acyclic : acyclic_includes (heap Fixture.include_world).
Proof.
  destruct (run_calls_acyclic Fixture.path_resolve 4 Fixture.include_script
              Fixture.empty_world) as (w' & Hrun & Hacyc).
  - apply no_edges_acyclic. intros r. reflexivity.
  - vm_compute. lia.
  - unfold Fixture.include_world, Fixture.world_of. by rewrite Hrun.
Qed.

Lemma hasInclude_decides_reachability_witness :
  (rtc (includes_edge (heap Fixture.include_world)) 0 1 →
   hasInclude 3 (heap Fixture.include_world) 0 1 = Some true) ∧
  (¬ rtc (includes_edge (heap Fixture.include_world)) 0 1 →
   hasInclude 3 (heap Fixture.include_world) 0 1 = Some false).
Proof.
  apply (hasInclude_decides_reachability (heap Fixture.include_world) 3 0 1).
  - apply include_world_acyclic.
  - vm_compute. lia.
Defined.

Lemma looped_store_includes (r : ref) :
  includes_of Fixture.looped_store r = if decide (r = 0) then [0] else [].
Proof.
  unfold includes_of, Fixture.looped_store.
  destruct (decide (r = 0)) as [->|Hne].
  - by rewrite lookup_singleton_eq.
  - by rewrite lookup_singleton_ne.
Qed.

Lemma hasInclude_diverges_on_cycle_witness :
  hasInclude 1000 Fixture.looped_store 0 1 = None.
Proof.
  generalize 1000.
  apply (hasInclude_diverges_on_cycle Fixture.looped_store 0 1).
  - apply tc_once. unfold includes_edge. rewrite looped_store_includes.
    apply list_elem_of_here.
  - intros Hreach.
    assert (∀ x, rtc (includes_edge Fixture.looped_store) 0 x → x = 0) as Hall.
    { apply rtc_ind_r; [done|]. intros y z _ Hedge ->.
      unfold includes_edge in Hedge. rewrite looped_store_includes in Hedge.
      by apply list_elem_of_singleton in Hedge. }
    by apply Hall in Hreach.
Defined.

Lemma resolve_leaves_resolved_modules_witness :
  heap Fixture.then_resolved !! 1
  = Some (Fixture.the_module Fixture.partly_resolved 1).
Proof.
  apply (resolve_leaves_resolved_modules 4 0 Fixture.partly_resolved
           Fixture.then_resolved (Ok tt) 1);
    vm_compute; reflexivity.
Defined.

Lemma resolve_terminates_witness :
  is_Some (resolve 3 0 Fixture.cycle_declared).
Proof.
  apply (resolve_terminates 3 0 Fixture.cycle_declared). vm_compute. lia.
Defined.

Lemma resolve_resolves_targets_witness :
  ∃ m', heap Fixture.resolved_world !! 1 = Some m' ∧ resolved m' = true.
Proof.
  apply (resolve_resolves_targets 4 0 Fixture.declared_world
           Fixture.resolved_world
           (Fixture.the_module Fixture.declared_world 0)
           [(Some "/b", OnImport); (Some "/b", OnExclude)]
           (Some "/b", OnImport) 1);
    try (vm_compute; reflexivity).
  apply list_elem_of_here.
Defined.

Lemma resolve_appends_declared_edges_witness :
  ∃ m', heap Fixture.resolved_world !! 0 = Some m' ∧
        imports m' = [] ++ [1] ∧ excludes m' = [] ++ [1].
Proof.
  apply (resolve_appends_declared_edges 4 0 Fixture.declared_world
           Fixture.resolved_world
           (Fixture.the_module Fixture.declared_world 0)
           [(Some "/b", OnImport); (Some "/b", OnExclude)]);
    vm_compute; reflexivity.
Defined.

Lemma resolve_failure_is_final_witness :
  (∃ m', heap Fixture.broken_resolved !! 0 = Some m' ∧ resolved m' = true ∧
         requires m' = requires (Fixture.the_module Fixture.broken_world 0) ∧
         file m' = file (Fixture.the_module Fixture.broken_world 0)) ∧
  resolve 1 0 Fixture.broken_resolved = Some (Ok tt, Fixture.broken_resolved).
Proof.
  apply (resolve_failure_is_final 4 0 0 Fixture.broken_world
           Fixture.broken_resolved
           (Fixture.the_module Fixture.broken_world 0) TypeError);
    vm_compute; reflexivity.
Defined.

Lemma resolve_invokes_each_callback_once_witness :
  ∃ new, trace Fixture.resolved_world = trace Fixture.declared_world ++ new ∧
         filter (λ e, e.1.1 = 0) new
         = [(0, OnImport, Some 1); (0, OnExclude, Some 1)].
Proof.
  apply (resolve_invokes_each_callback_once 4 0 Fixture.declared_world
           Fixture.resolved_world
           (Fixture.the_module Fixture.declared_world 0)
           [(Some "/b", OnImport); (Some "/b", OnExclude)]);
    vm_compute; reflexivity.
Defined.

Lemma constructor_then_resolve_witness :
  ∃ m', heap Fixture.added_resolved !! 3 = Some m' ∧
        imports m' = [1; 2] ∧ excludes m' = [0].
Proof.
  apply (constructor_then_resolve Fixture.path_resolve Fixture.pk
           Fixture.fileD (Some Fixture.optionsD) Fixture.declared_world
           Fixture.added_world Fixture.added_resolved 3 4);
    vm_compute; reflexivity.
Defined.

Lemma import_keeps_duplicates_witness :
  imports_of
    (heap (import 0 2 (import 0 2 Fixture.declared_world).2).2) 0
  = [] ++ [2; 2].
Proof.
  apply (import_keeps_duplicates 0 2 Fixture.declared_world
           (Fixture.the_module Fixture.declared_world 0));
    [lia|vm_compute; reflexivity].
Defined.

Lemma edge_insertion_after_shedding_witness :
  import 0 2 Fixture.resolved_world
  = (Throw TypeError,
     store 0 (set_imports
                (imports (Fixture.the_module Fixture.resolved_world 0) ++ [2])
                (Fixture.the_module Fixture.resolved_world 0))
           Fixture.resolved_world).
Proof.
  apply (edge_insertion_after_shedding 0 2 Fixture.resolved_world
           (Fixture.the_module Fixture.resolved_world 0)
           (Fixture.the_module Fixture.resolved_world 2) "/c");
    try (vm_compute; reflexivity).
  lia.
Defined.


Lemma declared_world_heap :
  heap Fixture.declared_world
  = <[2 := Fixture.the_module Fixture.declared_world 2]>
      (<[1 := Fixture.the_module Fixture.declared_world 1]>
         (<[0 := Fixture.the_module Fixture.declared_world 0]> ∅)).
Proof. vm_compute. reflexivity. Qed.

Lemma ensure_suffices_for_resolve_witness :
  ∃ w', resolve 4 0 Fixture.declared_world = Some (Ok tt, w').
Proof.
  apply (ensure_suffices_for_resolve 4 0 Fixture.declared_world).
  - intros r m Hm _. rewrite declared_world_heap in Hm.
    repeat (apply lookup_insert_Some in Hm as [[<- <-]|[_ Hm]];
            [split; [by eexists|]; eexists; split; [vm_compute; reflexivity|];
             intros p Hp;
             repeat (apply elem_of_cons in Hp as [->|Hp];
                     [eexists; split; [vm_compute; reflexivity|by eexists]|]);
             by apply elem_of_nil in Hp|]).
    by rewrite lookup_empty in Hm.
  - by eexists.
  - vm_compute. lia.
Defined.
